(** * Items API: filter construction, aggregation pipelines and request handlers

    A shallow embedding of [routes/itemRoutes.js] (the router), of the
    [Item] schema of [models/Item.js], and of the part of the document
    store the router talks to (find, findById, findByIdAndUpdate,
    findByIdAndDelete, save, distinct, aggregate).

    Numbers are exact rationals: IEEE rounding of the store's doubles is
    outside the model. *)

From Stdlib Require Import QArith Qcanon.
From stdpp Require Import gmap strings list fin_maps sorting.

Local Open Scope string_scope.
Local Open Scope list_scope.

(** ** JavaScript / JSON values *)

(** A value that travels in a query string, a request body, a stored
    document or a response.  [undefined] is the absence of a key. *)
#[warnings="-register-all"]
Inductive json : Type :=
| JNull
| JBool (b : bool)
| JNum (q : Q)
| JStr (s : string)
| JArr (l : list json)
| JObj (l : list (string * json)).

(** A document, a filter and the parsed parameters of a request are objects
    looked up by key. *)
Abbreviation doc := (gmap string json).

(** JavaScript's ToBoolean, as [if (x)] applies it. *)
Definition truthy (v : json) : bool :=
  match v with
  | JNull => false
  | JBool b => b
  | JNum q => negb (Qeq_bool q 0)
  | JStr s => negb (String.eqb s "")
  | JArr _ => true
  | JObj _ => true
  end.

(** [if (x) filter.k = x;] where [x] was read from the request by
    destructuring: [None] is [undefined]. *)
Definition assign_if (x : option json) (k : string) (filter : doc) : doc :=
  match x with
  | Some v => if truthy v then <[k := v]> filter else filter
  | None => filter
  end.

(** ** Filter construction *)

(** GET /: lines 13-22. *)
Definition listFilter (query : doc) : doc :=
  let country := query !! "country" in
  let sector := query !! "sector" in
  let topic := query !! "topic" in
  let pestle := query !! "pestle" in
  let region := query !! "region" in
  let start_year := query !! "start_year" in
  let end_year := query !! "end_year" in
  let filter := ∅ in
  let filter := assign_if country "country" filter in
  let filter := assign_if sector "sector" filter in
  let filter := assign_if topic "topic" filter in
  let filter := assign_if pestle "pestle" filter in
  let filter := assign_if region "region" filter in
  let filter := assign_if start_year "start_year" filter in
  let filter := assign_if end_year "end_year" filter in
  filter.

(** POST /filter: lines 120-129. *)
Definition chartFilter (body : doc) : doc :=
  let filter := ∅ in
  let region := body !! "region" in
  let sector := body !! "sector" in
  let topic := body !! "topic" in
  let end_year := body !! "end_year" in
  let country := body !! "country" in
  let pestle := body !! "pestle" in
  let source := body !! "source" in
  let filter := assign_if region "region" filter in
  let filter := assign_if sector "sector" filter in
  let filter := assign_if topic "topic" filter in
  let filter := assign_if end_year "end_year" filter in
  let filter := assign_if country "country" filter in
  let filter := assign_if pestle "pestle" filter in
  let filter := assign_if source "source" filter in
  filter.

(** The names each handler destructures from its input. *)
Definition list_params : list string :=
  ["country"; "sector"; "topic"; "pestle"; "region"; "start_year"; "end_year"].

Definition chart_params : list string :=
  ["region"; "sector"; "topic"; "end_year"; "country"; "pestle"; "source"].

(** ** Query matching in the store *)

(** Equality of two values as the store compares them: numbers by value,
    strings by content, arrays and embedded documents member by member. *)
Fixpoint json_eqb (a b : json) : bool :=
  match a, b with
  | JNull, JNull => true
  | JBool x, JBool y => Bool.eqb x y
  | JNum x, JNum y => Qeq_bool x y
  | JStr x, JStr y => String.eqb x y
  | JArr xs, JArr ys =>
      (fix go (xs ys : list json) : bool :=
         match xs, ys with
         | [], [] => true
         | x :: xs', y :: ys' => json_eqb x y && go xs' ys'
         | _, _ => false
         end) xs ys
  | JObj xs, JObj ys =>
      (fix go (xs ys : list (string * json)) : bool :=
         match xs, ys with
         | [], [] => true
         | (k, x) :: xs', (k', y) :: ys' =>
             String.eqb k k' && json_eqb x y && go xs' ys'
         | _, _ => false
         end) xs ys
  | _, _ => false
  end.

(** The condition [{field: v}] on one field of a document: a missing field
    equals [null] and nothing else.  The [Item] schema has scalar paths
    only, so no array is searched for a member, and no operator document
    occurs among the values the handlers put in a filter from strings. *)
Definition field_equals (v : json) (field : option json) : bool :=
  match field with
  | Some x => json_eqb v x
  | None => json_eqb v JNull
  end.

(** A document satisfies a filter when it satisfies the condition of every
    key of the filter. *)
Definition matches (filter : doc) (d : doc) : bool :=
  forallb (fun kv => field_equals kv.2 (d !! kv.1)) (map_to_list filter).

(** ** Aggregation pipelines *)

(** An object literal defines its properties from left to right; a name
    written twice keeps the value written last. *)
Definition object_literal {A} (props : list (string * A)) : gmap string A :=
  foldl (fun o kv => <[kv.1 := kv.2]> o) ∅ props.

(** [{ $avg: "$path" }] and [{ $sum: n }]. *)
Inductive accumulator : Type :=
| Avg (path : string)
| Sum (n : Q).

(** The three kinds of stage the router uses:
    [{ $match: { field: { op: arg, ... }, ... } }],
    [{ $group: { _id: "$path", out: acc } }] and [{ $sort: { key: dir } }]. *)
Inductive stage : Type :=
| Match (conds : gmap string (gmap string json))
| Group (path : string) (out : string) (acc : accumulator)
| Sort (key : string) (dir : Z).

(** One comparison operator applied to a field; [None] for an operator the
    store does not know, which makes it refuse the query. *)
Definition operator_holds (op : string) (arg : json) (field : option json)
  : option bool :=
  if String.eqb op "$ne" then Some (negb (field_equals arg field))
  else if String.eqb op "$eq" then Some (field_equals arg field)
  else None.

(** Conjunction of a list of checks, [None] as soon as one is [None]. *)
Fixpoint all_hold (checks : list (option bool)) : option bool :=
  match checks with
  | [] => Some true
  | c :: cs =>
      match c, all_hold cs with
      | Some b, Some b' => Some (b && b')
      | _, _ => None
      end
  end.

Definition operators_hold (ops : gmap string json) (field : option json)
  : option bool :=
  all_hold ((fun kv => operator_holds kv.1 kv.2 field) <$> map_to_list ops).

Definition conds_hold (conds : gmap string (gmap string json)) (d : doc)
  : option bool :=
  all_hold ((fun kv => operators_hold kv.2 (d !! kv.1)) <$> map_to_list conds).

(** [$match]: keep the documents that satisfy the conditions, in order. *)
Fixpoint match_stage (conds : gmap string (gmap string json))
    (docs : list doc) : option (list doc) :=
  match docs with
  | [] => Some []
  | d :: ds =>
      match conds_hold conds d, match_stage conds ds with
      | Some b, Some ds' => Some (if b then d :: ds' else ds')
      | _, _ => None
      end
  end.

(** ["$path"]: the value of a field, [null] when the document lacks it. *)
Definition field_value (path : string) (d : doc) : json :=
  default JNull (d !! path).

(** [$group] walks the documents once and keeps one bucket per key value,
    in the order the keys first appear. *)
Fixpoint add_to_group (k : json) (d : doc) (groups : list (json * list doc))
  : list (json * list doc) :=
  match groups with
  | [] => [(k, [d])]
  | (k', ds) :: groups' =>
      if json_eqb k k' then (k', ds ++ [d]) :: groups'
      else (k', ds) :: add_to_group k d groups'
  end.

Definition group_by (path : string) (docs : list doc)
  : list (json * list doc) :=
  foldl (fun groups d => add_to_group (field_value path d) d groups) [] docs.

(** The numeric values of a field over a bucket: [$avg] ignores the
    documents where the field is missing or not a number. *)
Definition numeric_values (path : string) (ds : list doc) : list Q :=
  omap (fun d : doc => match d !! path with
                       | Some (JNum q) => Some q
                       | _ => None
                       end) ds.

Definition Qsum (qs : list Q) : Q := foldr Qplus 0%Q qs.

(** The mean in lowest terms, [null] when there is no number to average. *)
Definition average (qs : list Q) : json :=
  match qs with
  | [] => JNull
  | _ => JNum (Qred (Qsum qs / inject_Z (Z.of_nat (length qs))))
  end.

Definition accumulate (acc : accumulator) (ds : list doc) : json :=
  match acc with
  | Avg path => average (numeric_values path ds)
  | Sum n => JNum (Qred (Qsum ((fun _ => n) <$> ds)))
  end.

Definition group_stage (path out : string) (acc : accumulator)
    (docs : list doc) : list doc :=
  (fun g => <[out := accumulate acc g.2]> {["_id" := g.1]})
    <$> group_by path docs.

(** The store's order between values of different types, then by value
    within numbers, strings and booleans. *)
Definition bson_rank (v : json) : Z :=
  match v with
  | JNull => 1
  | JNum _ => 2
  | JStr _ => 3
  | JObj _ => 4
  | JArr _ => 5
  | JBool _ => 8
  end.

Definition bson_compare (a b : json) : comparison :=
  match a, b with
  | JNum x, JNum y => Qcompare x y
  | JStr x, JStr y => String.compare x y
  | JBool x, JBool y => Bool.compare x y
  | _, _ => Z.compare (bson_rank a) (bson_rank b)
  end.

(** [d1] may come before [d2] under [{ $sort: { key: dir } }]: ascending
    for a positive [dir], descending otherwise. *)
Definition sort_le (key : string) (dir : Z) (d1 d2 : doc) : Prop :=
  if (0 <? dir)%Z
  then bson_compare (field_value key d1) (field_value key d2) ≠ Gt
  else bson_compare (field_value key d2) (field_value key d1) ≠ Gt.

#[global] Instance sort_le_dec key dir d1 d2 : Decision (sort_le key dir d1 d2).
Proof. unfold sort_le. destruct (0 <? dir)%Z; apply _. Defined.

Definition sort_stage (key : string) (dir : Z) (docs : list doc) : list doc :=
  merge_sort (sort_le key dir) docs.

Definition run_stage (s : stage) (docs : list doc) : option (list doc) :=
  match s with
  | Match conds => match_stage conds docs
  | Group path out acc => Some (group_stage path out acc docs)
  | Sort key dir => Some (sort_stage key dir docs)
  end.

Fixpoint run_pipeline (p : list stage) (docs : list doc) : option (list doc) :=
  match p with
  | [] => Some docs
  | s :: p' =>
      match run_stage s docs with
      | Some docs' => run_pipeline p' docs'
      | None => None
      end
  end.

(** GET /stats/aggregate: the four pipelines, lines 146-170. *)
Definition avgIntensityByRegion_pipeline : list stage :=
  [ Match (object_literal [("intensity", object_literal [("$ne", JNull)])]);
    Group "region" "avgIntensity" (Avg "intensity");
    Sort "avgIntensity" (-1) ].

Definition countByTopic_pipeline : list stage :=
  [ Group "topic" "count" (Sum 1);
    Sort "count" (-1) ].

Definition avgLikelihoodBySector_pipeline : list stage :=
  [ Match (object_literal [("likelihood", object_literal [("$ne", JNull)])]);
    Group "sector" "avgLikelihood" (Avg "likelihood");
    Sort "avgLikelihood" (-1) ].

Definition avgRelevanceByYear_pipeline : list stage :=
  [ Match (object_literal
             [("relevance", object_literal [("$ne", JNull); ("$ne", JStr "")])]);
    Group "end_year" "avgRelevance" (Avg "relevance");
    Sort "_id" 1 ].

(** ** The [Item] schema *)

Inductive schema_type : Type := SString | SNumber.

(** [models/Item.js], lines 5-21: the declared paths, their types and
    their defaults.  The schema also has [timestamps: true]. *)
Definition itemSchema : list (string * (schema_type * option json)) :=
  [ ("end_year", (SString, Some (JStr "")));
    ("intensity", (SNumber, None));
    ("sector", (SString, None));
    ("topic", (SString, None));
    ("insight", (SString, None));
    ("url", (SString, None));
    ("region", (SString, None));
    ("start_year", (SString, Some (JStr "")));
    ("impact", (SString, Some (JStr "")));
    ("added", (SString, None));
    ("published", (SString, None));
    ("country", (SString, None));
    ("relevance", (SNumber, None));
    ("pestle", (SString, None));
    ("source", (SString, None));
    ("title", (SString, None));
    ("likelihood", (SNumber, None)) ].

(** The paths that have a default, with it. *)
Definition schema_defaults : doc :=
  list_to_map (omap (fun p => pair p.1 <$> p.2.2) itemSchema).

(** ** Errors, the world and the handler monad *)

(** A JavaScript [Error]: the handlers read [message]; [stack] is what a
    stack trace would be. *)
Record error : Type := Error {
  err_name : string;
  err_message : string;
  err_stack : string;
}.

(** What a handler can see and change: the [items] collection in its
    natural order, what the next round trips to the store will meet
    ([Some e]: the store fails with [e]; [None] or no entry: it answers),
    the lines written by [console.error], the clock, and how many
    identifiers the driver has handed out. *)
Record world : Type := World {
  items : list doc;
  faults : list (option error);
  console : list (string * error);
  clock : Z;
  created : nat;
}.

Definition with_items (ds : list doc) (w : world) : world :=
  World ds (faults w) (console w) (clock w) (created w).
Definition with_faults (fs : list (option error)) (w : world) : world :=
  World (items w) fs (console w) (clock w) (created w).
Definition with_console (c : list (string * error)) (w : world) : world :=
  World (items w) (faults w) c (clock w) (created w).
Definition with_created (n : nat) (w : world) : world :=
  World (items w) (faults w) (console w) (clock w) n.

(** An awaited promise resolves with a value or rejects with an error. *)
Inductive outcome (A : Type) : Type :=
| Resolved (a : A)
| Rejected (e : error).
Arguments Resolved {A} a.
Arguments Rejected {A} e.

Definition M (A : Type) : Type := world -> outcome A * world.

Definition ret {A} (a : A) : M A := fun w => (Resolved a, w).

Definition throw {A} (e : error) : M A := fun w => (Rejected e, w).

Definition bind {A B} (m : M A) (k : A -> M B) : M B :=
  fun w =>
    match m w with
    | (Resolved a, w') => k a w'
    | (Rejected e, w') => (Rejected e, w')
    end.

Definition try_catch {A} (m : M A) (handler : error -> M A) : M A :=
  fun w =>
    match m w with
    | (Resolved a, w') => (Resolved a, w')
    | (Rejected e, w') => handler e w'
    end.

Declare Scope js_scope.
Delimit Scope js_scope with js.
Notation "x <- c ;; k" := (bind c (fun x => k))
  (at level 100, c at next level, right associativity) : js_scope.
Notation "'try' m 'catch' h" := (try_catch m h)
  (at level 100, m at next level, h at next level) : js_scope.
Local Open Scope js_scope.

(** One round trip to the store: it meets the next planned fault, or runs
    the operation on the collection. *)
Definition roundtrip {A} (op : world -> outcome A * world) : M A :=
  fun w =>
    match faults w with
    | Some e :: fs => (Rejected e, with_faults fs w)
    | None :: fs => op (with_faults fs w)
    | [] => op w
    end.

Definition console_error (label : string) (err : error) : M unit :=
  fun w => (Resolved tt, with_console (console w ++ [(label, err)]) w).

(** ** Requests and responses *)

Record request : Type := Request {
  params_id : string;
  query : doc;
  body : doc;
}.

Record response : Type := Response {
  status : nat;
  payload : json;
}.

(** [res.status(code).json(v)]; [res.json(v)] is [res_json 200 v]. *)
Definition res_json (code : nat) (v : json) : M response :=
  ret (Response code v).

Definition doc_json (d : doc) : json := JObj (map_to_list d).
Definition docs_json (ds : list doc) : json := JArr (doc_json <$> ds).
Definition nullable_json (d : option doc) : json :=
  match d with
  | Some d => doc_json d
  | None => JNull
  end.

(** [{ message: text }] *)
Definition message_body (text : string) : json := JObj [("message", JStr text)].

(** ** The store behind [Item] *)

Definition has_id (oid : string) (d : doc) : bool :=
  match d !! "_id" with
  | Some (JStr s) => String.eqb s oid
  | _ => false
  end.

Fixpoint replace_first (p : doc -> bool) (new : doc) (ds : list doc)
  : list doc :=
  match ds with
  | [] => []
  | d :: ds' => if p d then new :: ds' else d :: replace_first p new ds'
  end.

Fixpoint remove_first (p : doc -> bool) (ds : list doc) : list doc :=
  match ds with
  | [] => []
  | d :: ds' => if p d then ds' else d :: remove_first p ds'
  end.

(** The values a field takes over the collection, each once; a document
    without the field contributes nothing. *)
Definition distinct_values (field : string) (ds : list doc) : list json :=
  foldl (fun seen d =>
           match d !! field with
           | Some v => if existsb (json_eqb v) seen then seen else seen ++ [v]
           | None => seen
           end) [] ds.

Definition timestamp (w : world) : json := JNum (inject_Z (clock w)).

Definition unknown_operator : error :=
  Error "MongoServerError" "unknown operator" "".

Section Store.

(** What the object mapper and the driver decide, and this repository
    does not: how an identifier string is cast to an object identifier
    (or the error thrown for a malformed one), how a request body is
    cast to the declared paths of [itemSchema] (or the error for a value
    that cannot be cast), and the identifiers handed out to new
    documents. *)
Variable castObjectId : string -> error + string.
Variable castBody : doc -> error + doc.
Variable objectId : nat -> string.

(** [Item.find(filter)] *)
Definition Item_find (filter : doc) : M (list doc) :=
  roundtrip (fun w => (Resolved (List.filter (matches filter) (items w)), w)).

(** [Item.findById(id)] *)
Definition Item_findById (id : string) : M (option doc) :=
  match castObjectId id with
  | inl e => throw e
  | inr oid =>
      roundtrip (fun w => (Resolved (List.find (has_id oid) (items w)), w))
  end.

(** [new Item(obj)]: the document takes its identifier and the defaults
    of the paths [obj] leaves out; a value that cannot be cast is
    remembered for [save] to report. *)
Definition new_Item (obj : doc) : M (error + doc) :=
  fun w =>
    (Resolved
       (match castBody obj with
        | inl e => inl e
        | inr fields =>
            inr (<["_id" := JStr (objectId (created w))]>
                   (fields ∪ schema_defaults))
        end),
     with_created (S (created w)) w).

(** [item.save()]: validation, then the insertion with both timestamps
    and the version key. *)
Definition save (item : error + doc) : M doc :=
  match item with
  | inl e => throw e
  | inr d =>
      roundtrip (fun w =>
        let saved :=
          <["createdAt" := timestamp w]>
            (<["updatedAt" := timestamp w]> (<["__v" := JNum 0]> d)) in
        (Resolved saved, with_items (items w ++ [saved]) w))
  end.

(** [Item.findByIdAndUpdate(id, update, { new: true })]: the fields of
    the update are set over the stored document, [updatedAt] is
    refreshed, and the document as it is after the update is returned;
    [null] and no change when no document has the identifier. *)
Definition Item_findByIdAndUpdate (id : string) (update : doc)
  : M (option doc) :=
  match castObjectId id with
  | inl e => throw e
  | inr oid =>
      match castBody update with
      | inl e => throw e
      | inr fields =>
          roundtrip (fun w =>
            match List.find (has_id oid) (items w) with
            | Some old =>
                let new := fields ∪ <["updatedAt" := timestamp w]> old in
                (Resolved (Some new),
                 with_items (replace_first (has_id oid) new (items w)) w)
            | None => (Resolved None, w)
            end)
      end
  end.

(** [Item.findByIdAndDelete(id)]: the removed document, or [null]. *)
Definition Item_findByIdAndDelete (id : string) : M (option doc) :=
  match castObjectId id with
  | inl e => throw e
  | inr oid =>
      roundtrip (fun w =>
        (Resolved (List.find (has_id oid) (items w)),
         with_items (remove_first (has_id oid) (items w)) w))
  end.

(** [Item.distinct(field)] *)
Definition Item_distinct (field : string) : M (list json) :=
  roundtrip (fun w => (Resolved (distinct_values field (items w)), w)).

(** [Item.aggregate(pipeline)] *)
Definition Item_aggregate (pipeline : list stage) : M (list doc) :=
  roundtrip (fun w =>
    match run_pipeline pipeline (items w) with
    | Some result => (Resolved result, w)
    | None => (Rejected unknown_operator, w)
    end).

(** ** The handlers of the router *)

(** GET / *)
Definition get_root (req : request) : M response :=
  try (
    let filter := listFilter (query req) in
    items <- Item_find filter ;;
    res_json 200 (docs_json items))
  catch (fun err =>
    _ <- console_error "Error fetching data:" err ;;
    res_json 500 (message_body "Server Error")).

(** GET /:id *)
Definition get_by_id (req : request) : M response :=
  try (
    item <- Item_findById (params_id req) ;;
    match item with
    | None => res_json 404 (message_body "Item not found")
    | Some d => res_json 200 (doc_json d)
    end)
  catch (fun err =>
    res_json 500 (message_body (err_message err))).

(** POST / *)
Definition post_root (req : request) : M response :=
  try (
    newItem <- new_Item (body req) ;;
    savedItem <- save newItem ;;
    res_json 201 (doc_json savedItem))
  catch (fun err =>
    _ <- console_error "Error adding item:" err ;;
    res_json 400 (message_body "Failed to add item")).

(** PUT /:id *)
Definition put_by_id (req : request) : M response :=
  try (
    updatedItem <- Item_findByIdAndUpdate (params_id req) (body req) ;;
    res_json 200 (nullable_json updatedItem))
  catch (fun err =>
    _ <- console_error "Error updating item:" err ;;
    res_json 400 (message_body "Failed to update item")).

(** DELETE /:id *)
Definition delete_by_id (req : request) : M response :=
  try (
    _ <- Item_findByIdAndDelete (params_id req) ;;
    res_json 200 (message_body "Item deleted"))
  catch (fun err =>
    _ <- console_error "Error deleting item:" err ;;
    res_json 400 (message_body "Failed to delete item")).

(** GET /filters/all *)
Definition get_filters_all (req : request) : M response :=
  try (
    countries <- Item_distinct "country" ;;
    sectors <- Item_distinct "sector" ;;
    topics <- Item_distinct "topic" ;;
    pestles <- Item_distinct "pestle" ;;
    regions <- Item_distinct "region" ;;
    sources <- Item_distinct "source" ;;
    swots <- Item_distinct "swot" ;;
    end_years <- Item_distinct "end_year" ;;
    start_years <- Item_distinct "start_year" ;;
    let filters :=
      JObj [ ("countries", JArr countries);
             ("sectors", JArr sectors);
             ("topics", JArr topics);
             ("pestles", JArr pestles);
             ("regions", JArr regions);
             ("sources", JArr sources);
             ("swots", JArr swots);
             ("end_years", JArr end_years);
             ("start_years", JArr start_years) ] in
    res_json 200 filters)
  catch (fun err =>
    _ <- console_error "Error fetching filters:" err ;;
    res_json 500 (message_body "Failed to load filters")).

(** POST /filter *)
Definition post_filter (req : request) : M response :=
  try (
    let filter := chartFilter (body req) in
    filteredData <- Item_find filter ;;
    res_json 200 (docs_json filteredData))
  catch (fun err =>
    _ <- console_error "Error filtering data:" err ;;
    res_json 500 (message_body "Failed to filter data")).

(** GET /stats/aggregate *)
Definition get_stats_aggregate (req : request) : M response :=
  try (
    avgIntensityByRegion <- Item_aggregate avgIntensityByRegion_pipeline ;;
    countByTopic <- Item_aggregate countByTopic_pipeline ;;
    avgLikelihoodBySector <- Item_aggregate avgLikelihoodBySector_pipeline ;;
    avgRelevanceByYear <- Item_aggregate avgRelevanceByYear_pipeline ;;
    res_json 200
      (JObj [ ("avgIntensityByRegion", docs_json avgIntensityByRegion);
              ("countByTopic", docs_json countByTopic);
              ("avgLikelihoodBySector", docs_json avgLikelihoodBySector);
              ("avgRelevanceByYear", docs_json avgRelevanceByYear) ]))
  catch (fun err =>
    _ <- console_error "Error fetching stats:" err ;;
    res_json 500 (message_body "Failed to fetch statistics")).

End Store.

(** ** Vocabulary of the statements *)

(** What [if (x) filter.k = x] keeps of a parameter. *)
Definition kept (x : option json) : option json :=
  match x with
  | Some v => if truthy v then Some v else None
  | None => None
  end.

(** The fault the next round trip meets, if any. *)
Definition next_fault (w : world) : option error :=
  match faults w with
  | Some e :: _ => Some e
  | _ => None
  end.

(** A computation that leaves the collection as it found it. *)
Definition preserves_items {A} (m : M A) : Prop :=
  ∀ w, items (m w).2 = items w.

(** The responses a computation can resolve with all satisfy [P]. *)
Definition resolves_within (P : response -> Prop) (m : M response) : Prop :=
  ∀ w, match (m w).1 with
       | Resolved r => P r
       | Rejected _ => True
       end.

(** [d] belongs to the group of key [k]. *)
Definition same_key (path : string) (k : json) (d : doc) : bool :=
  json_eqb (field_value path d) k.

(** The field is there and is not [null]: what [{ $ne: null }] keeps. *)
Definition has_value (path : string) (d : doc) : bool :=
  negb (field_equals JNull (d !! path)).

(** No two buckets have equal keys. *)
Fixpoint distinct_keys (groups : list (json * list doc)) : Prop :=
  match groups with
  | [] => True
  | (k, _) :: groups' =>
      (∀ k' ds', (k', ds') ∈ groups' → json_eqb k' k = false)
      ∧ distinct_keys groups'
  end.

(** The count an entry of countByTopic carries. *)
Definition count_of (r : doc) : Q :=
  match r !! "count" with
  | Some (JNum q) => q
  | _ => 0%Q
  end.

(** avgRelevanceByYear as its table row describes it: the documents whose
    relevance is there and not [null], grouped by [end_year], the mean of
    relevance per group, ascending by group key. *)
Definition avgRelevanceByYear_spec (docs : list doc) : list doc :=
  sort_stage "_id" 1
    (group_stage "end_year" "avgRelevance" (Avg "relevance")
       (List.filter (has_value "relevance") docs)).

(** ** A driver for the examples *)

Definition is_hex_digit (a : Ascii.ascii) : bool :=
  let n := Ascii.nat_of_ascii a in
  ((48 <=? n) && (n <=? 57) || (97 <=? n) && (n <=? 102)
   || (65 <=? n) && (n <=? 70))%nat.

(** Twenty-four hexadecimal digits make an identifier; anything else is
    refused with the error the object mapper throws. *)
Definition example_castObjectId (id : string) : error + string :=
  if ((String.length id =? 24)%nat
      && forallb is_hex_digit (String.list_ascii_of_string id))%bool
  then inr id
  else inl (Error "CastError"
              ("Cast to ObjectId failed for value " ++ id
               ++ " (type string) at path _id for model Item")
              ("CastError: Cast to ObjectId failed for value " ++ id
               ++ " at model.Query.exec (node_modules/mongoose/lib/query.js)")).

Definition example_castBody (b : doc) : error + doc := inr b.

Definition example_objectId (n : nat) : string :=
  "65f1c0de0000000000000000".

Definition connection_refused : error :=
  Error "MongoNetworkError" "connect ECONNREFUSED 127.0.0.1:27017"
    "MongoNetworkError: connect ECONNREFUSED 127.0.0.1:27017 at connectionFailureError (node_modules/mongodb/lib/cmap/connect.js)".

Definition oil : doc :=
  {[ "_id" := JStr "65f1c0de0000000000000000"; "topic" := JStr "oil" ]}.

Definition asia3 : doc := {[ "region" := JStr "Asia"; "intensity" := JNum 3 ]}.
Definition asia5 : doc := {[ "region" := JStr "Asia"; "intensity" := JNum 5 ]}.
Definition y2020 : doc := {[ "end_year" := JStr "2020" ]}.

(** ** The process bootstrap *)

(** What the [origin] function of the CORS options hands to its callback:
    [callback(null, true)] or [callback(new Error(text))]. *)
Inductive cors_decision : Type :=
| Allow
| Deny (text : string).

(** [server.js], lines 20-27.  [None] is a request without an Origin
    header; [!origin] also holds of the empty string. *)
Definition cors_origin (origin : option string) : cors_decision :=
  match origin with
  | None => Allow
  | Some o =>
      if negb (truthy (JStr o)) || String.prefix "http://localhost" o
      then Allow
      else Deny "Not allowed by CORS"
  end.

(** ** The route table *)

Inductive method : Type := GET | POST | PUT | DELETE.

Inductive path_segment : Type :=
| Literal (s : string)
| Param (name : string).

Inductive endpoint : Type :=
| ListItems | GetItem | CreateItem | UpdateItem | DeleteItem
| FilterValues | ChartFilter | AggregateStats.

(** The routes in the order the router registers them (lines 11, 36, 50,
    65, 79, 93, 118 and 143), each path split at its slashes. *)
Definition routes : list (method * list path_segment * endpoint) :=
  [ (GET, [], ListItems);
    (GET, [Param "id"], GetItem);
    (POST, [], CreateItem);
    (PUT, [Param "id"], UpdateItem);
    (DELETE, [Param "id"], DeleteItem);
    (GET, [Literal "filters"; Literal "all"], FilterValues);
    (POST, [Literal "filter"], ChartFilter);
    (GET, [Literal "stats"; Literal "aggregate"], AggregateStats) ].

Definition method_eqb (a b : method) : bool :=
  match a, b with
  | GET, GET | POST, POST | PUT, PUT | DELETE, DELETE => true
  | _, _ => false
  end.

(** The router compares literal segments without regard to case. *)
Definition lower_ascii (a : Ascii.ascii) : Ascii.ascii :=
  let n := Ascii.nat_of_ascii a in
  if ((65 <=? n) && (n <=? 90))%nat then Ascii.ascii_of_nat (n + 32) else a.

Fixpoint lower (s : string) : string :=
  match s with
  | EmptyString => EmptyString
  | String a s' => String (lower_ascii a) (lower s')
  end.

(** A literal matches its own text; a parameter matches any segment that
    is not empty. *)
Definition segment_matches (p : path_segment) (seg : string) : bool :=
  match p with
  | Literal l => String.eqb (lower l) (lower seg)
  | Param _ => negb (String.eqb seg "")
  end.

Fixpoint path_matches (ps : list path_segment) (segs : list string) : bool :=
  match ps, segs with
  | [], [] => true
  | p :: ps', seg :: segs' => segment_matches p seg && path_matches ps' segs'
  | _, _ => false
  end.

Definition route_matches (m : method) (segs : list string)
    (r : method * list path_segment * endpoint) : bool :=
  method_eqb m r.1.1 && path_matches r.1.2 segs.

(** The first registered route that matches serves the request; [None]
    leaves it to whatever is mounted after the router. *)
Definition dispatch (m : method) (segs : list string) : option endpoint :=
  snd <$> head (List.filter (route_matches m segs) routes).

(** ** More vocabulary *)

(** The first fault among the next [n] round trips, if any. *)
Fixpoint first_fault (n : nat) (fs : list (option error)) : option error :=
  match n, fs with
  | S _, Some e :: _ => Some e
  | S n', None :: fs' => first_fault n' fs'
  | _, _ => None
  end.

(** How many entries of the plan [n] round trips consume: they stop at
    the first fault. *)
Fixpoint consumed (n : nat) (fs : list (option error)) : nat :=
  match n, fs with
  | S _, Some _ :: _ => 1
  | S n', None :: fs' => S (consumed n' fs')
  | _, _ => 0
  end.

(** The world once [n] round trips have been attempted. *)
Definition after_trips (n : nat) (w : world) : world :=
  with_faults (drop (consumed n (faults w)) (faults w)) w.


(** The document [findByIdAndUpdate] stores over [old]. *)
Definition updated_item (fields old : doc) (w : world) : doc :=
  fields ∪ <["updatedAt" := timestamp w]> old.


(** A computation that writes nothing to the console. *)
Definition quiet {A} (m : M A) : Prop :=
  ∀ w, console (m w).2 = console w.

(** A handler that always answers: with status [ok] and a console left as
    it was, or with [{ message: text }] under status [code] and one more
    console line, [label] and the error caught. *)
Definition answers_or_logs (label : string) (ok code : nat) (text : string)
    (m : M response) : Prop :=
  ∀ w, ∃ r,
    (m w).1 = Resolved r
    ∧ ((status r = ok ∧ console (m w).2 = console w)
       ∨ (r = Response code (message_body text)
          ∧ ∃ e, console (m w).2 = console w ++ [(label, e)])).

(** * Properties *)

(** ** Filter construction *)

Lemma lookup_assign_if x k (f : doc) j :
  assign_if x k f !! j =
  if decide (k = j) then (match kept x with Some v => Some v | None => f !! j end)
  else f !! j.
Proof.
  unfold assign_if, kept. destruct x as [v|]; [destruct (truthy v)|];
    case_decide; subst; simplify_map_eq; done.
Qed.

Ltac names_lookup :=
  rewrite !lookup_assign_if, lookup_empty;
  repeat (case_decide;
          [subst; rewrite bool_decide_eq_true_2 by (repeat constructor);
           by destruct (kept _)|]);
  rewrite bool_decide_eq_false_2;
  [done|rewrite !not_elem_of_cons; repeat split; try done;
        apply not_elem_of_nil].

Lemma listFilter_lookup (q : doc) k :
  listFilter q !! k = if bool_decide (k ∈ list_params) then kept (q !! k) else None.
Proof. unfold listFilter, list_params. cbv zeta. names_lookup. Qed.

Lemma chartFilter_lookup (b : doc) k :
  chartFilter b !! k = if bool_decide (k ∈ chart_params) then kept (b !! k) else None.
Proof. unfold chartFilter, chart_params. cbv zeta. names_lookup. Qed.

Lemma json_eqb_str s x : json_eqb (JStr s) x = true ↔ x = JStr s.
Proof.
  destruct x; simpl; try (split; [discriminate|discriminate]).
  rewrite String.eqb_eq. split; congruence.
Qed.

Lemma field_equals_str s fld : field_equals (JStr s) fld = true ↔ fld = Some (JStr s).
Proof.
  destruct fld as [x|]; unfold field_equals.
  - rewrite json_eqb_str. split; congruence.
  - simpl. split; discriminate.
Qed.

Lemma matches_spec (f d : doc) :
  matches f d = true ↔ ∀ k v, f !! k = Some v → field_equals v (d !! k) = true.
Proof.
  unfold matches. rewrite forallb_forall. split.
  - intros H k v Hkv. apply (H (k, v)).
    apply list_elem_of_In. by apply elem_of_map_to_list.
  - intros H [k v] Hin. apply list_elem_of_In, elem_of_map_to_list in Hin.
    simpl. by apply H.
Qed.

Lemma matches_empty d : matches ∅ d = true.
Proof. unfold matches. by rewrite map_to_list_empty. Qed.

Lemma kept_str (p : gmap string string) k :
  kept ((JStr <$> p) !! k) =
  match p !! k with
  | Some s => if String.eqb s "" then None else Some (JStr s)
  | None => None
  end.
Proof.
  rewrite lookup_fmap. destruct (p !! k) as [s|]; simpl; [|done].
  by destruct (String.eqb s "").
Qed.

Lemma string_filter_lookup (names : list string) (build : doc -> doc)
    (params : gmap string string) :
  (∀ (q : doc) k,
      build q !! k = if bool_decide (k ∈ names) then kept (q !! k) else None) →
  ∀ k v, build (JStr <$> params) !! k = Some v ↔
         k ∈ names ∧ ∃ s, params !! k = Some s ∧ s ≠ "" ∧ v = JStr s.
Proof.
  intros Hbuild k v. rewrite Hbuild, kept_str.
  case_bool_decide as Hk.
  - destruct (params !! k) as [s|] eqn:Hs.
    + destruct (String.eqb s "") eqn:He.
      * apply String.eqb_eq in He. split; [done|].
        intros (_ & s' & [= <-] & Hne & _). done.
      * apply String.eqb_neq in He. split.
        -- intros [= <-]. eauto.
        -- intros (_ & s' & [= <-] & _ & ->). done.
    + split; [done|]. intros (_ & s' & ? & _). done.
  - split; [done|]. intros [? _]. done.
Qed.

Lemma get_root_answers id q b ds c t n :
  get_root (Request id q b) (World ds [] c t n) =
  (Resolved (Response 200 (docs_json (List.filter (matches (listFilter q)) ds))),
   World ds [] c t n).
Proof. reflexivity. Qed.

(** C1.  GET / builds its filter from the seven names it reads from the
    query string.  For string parameters the filter has exactly the names
    whose value is a non-empty string, each with that string as its value;
    a document matches the filter exactly when each of those fields holds
    that string; an absent or empty parameter leaves no key; with no
    parameter the filter is empty and every document matches it; and the
    endpoint answers 200 with the documents that match the filter. *)
Theorem listFilter_string_params (params : gmap string string) :
  let filter := listFilter (JStr <$> params) in
  (∀ k v, filter !! k = Some v ↔
          k ∈ list_params ∧ ∃ s, params !! k = Some s ∧ s ≠ "" ∧ v = JStr s)
  ∧ (∀ d : doc, matches filter d = true ↔
                ∀ k s, k ∈ list_params → params !! k = Some s → s ≠ "" →
                       d !! k = Some (JStr s))
  ∧ (∀ k, params !! k = None ∨ params !! k = Some "" → filter !! k = None)
  ∧ listFilter ∅ = ∅
  ∧ (∀ d : doc, matches (listFilter ∅) d = true)
  ∧ (∀ id b ds c t n,
        get_root (Request id (JStr <$> params) b) (World ds [] c t n) =
        (Resolved (Response 200 (docs_json (List.filter (matches filter) ds))),
         World ds [] c t n)).
Proof.
  intros filter.
  assert (Hlook := string_filter_lookup list_params listFilter params
                     listFilter_lookup).
  fold filter in Hlook.
  split; [exact Hlook|]. split; [|split; [|split; [|split]]].
  - intros d. rewrite matches_spec. split.
    + intros H k s Hk Hs Hne. apply field_equals_str, H, Hlook. eauto.
    + intros H k v Hkv. apply Hlook in Hkv as (Hk & s & Hs & Hne & ->).
      apply field_equals_str. eauto.
  - intros k Hk. destruct (filter !! k) as [v|] eqn:Hv; [|done].
    apply Hlook in Hv as (_ & s & Hs & Hne & _).
    destruct Hk as [Hk|Hk]; rewrite Hk in Hs; congruence.
  - reflexivity.
  - intros d. apply matches_empty.
  - intros. apply get_root_answers.
Qed.

(** C3, as stated, fails: POST /filter does not read [start_year].  A body
    that carries only [start_year: "2020"] yields the empty filter there,
    where GET / keeps the key. *)
Lemma chartFilter_drops_start_year :
  let params : gmap string string := {["start_year" := "2020"]} in
  "start_year" ∈ list_params ++ ["source"]
  ∧ listFilter (JStr <$> params) !! "start_year" = Some (JStr "2020")
  ∧ chartFilter (JStr <$> params) !! "start_year" = None
  ∧ chartFilter (JStr <$> params) = ∅.
Proof.
  intros params. split; [set_solver|]. split; [|split].
  - by vm_compute.
  - by vm_compute.
  - apply map_eq. intros k. rewrite chartFilter_lookup, lookup_empty.
    case_bool_decide as Hk; [|done]. unfold params. rewrite <- insert_empty.
    rewrite fmap_insert, fmap_empty.
    unfold chart_params in Hk.
    repeat (apply elem_of_cons in Hk as [->|Hk]);
      [..|by apply elem_of_nil in Hk]; by simplify_map_eq.
Qed.

(** C3, amended.  POST /filter builds its filter from region, sector,
    topic, end_year, country, pestle and source: the names of GET / without
    start_year, and source.  Each is kept under the rule of GET /: the key
    is present exactly when the value is truthy, a non-empty string for
    string parameters. *)
Theorem chartFilter_params (body : doc) :
  (∀ k, chartFilter body !! k =
        if bool_decide (k ∈ chart_params) then kept (body !! k) else None)
  ∧ (∀ k, listFilter body !! k =
          if bool_decide (k ∈ list_params) then kept (body !! k) else None)
  ∧ chart_params ≡ₚ
      List.filter (fun k => negb (String.eqb k "start_year")) list_params
        ++ ["source"]
  ∧ (∀ (params : gmap string string) k v,
        chartFilter (JStr <$> params) !! k = Some v ↔
        k ∈ chart_params ∧ ∃ s, params !! k = Some s ∧ s ≠ "" ∧ v = JStr s).
Proof.
  split; [apply chartFilter_lookup|]. split; [apply listFilter_lookup|]. split.
  - vm_compute List.filter. unfold chart_params. simpl.
    apply (bool_decide_unpack _). vm_compute. reflexivity.
  - intros params. apply string_filter_lookup, chartFilter_lookup.
Qed.

(** ** Round trips *)

Lemma preserves_ret {A} (a : A) : preserves_items (ret a).
Proof. done. Qed.

Lemma preserves_throw {A} e : preserves_items (@throw A e).
Proof. done. Qed.

Lemma preserves_res_json code v : preserves_items (res_json code v).
Proof. done. Qed.

Lemma preserves_console_error label e : preserves_items (console_error label e).
Proof. done. Qed.

Lemma preserves_bind {A B} (m : M A) (k : A -> M B) :
  preserves_items m → (∀ a, preserves_items (k a)) → preserves_items (bind m k).
Proof.
  intros Hm Hk w. unfold bind. specialize (Hm w).
  destruct (m w) as [[a|e] w']; simpl in *; [|done].
  by rewrite Hk.
Qed.

Lemma preserves_try_catch {A} (m : M A) (h : error -> M A) :
  preserves_items m → (∀ e, preserves_items (h e)) →
  preserves_items (try_catch m h).
Proof.
  intros Hm Hh w. unfold try_catch. specialize (Hm w).
  destruct (m w) as [[a|e] w']; simpl in *; [done|].
  by rewrite Hh.
Qed.

Lemma preserves_roundtrip {A} (op : world -> outcome A * world) :
  preserves_items op → preserves_items (roundtrip op).
Proof.
  intros Hop w. unfold roundtrip.
  destruct (faults w) as [|[e|] fs]; try done.
  by rewrite Hop.
Qed.

Lemma preserves_Item_find filter : preserves_items (Item_find filter).
Proof. by apply preserves_roundtrip. Qed.

Lemma preserves_Item_findById cast id : preserves_items (Item_findById cast id).
Proof.
  unfold Item_findById. destruct (cast id); [done|].
  by apply preserves_roundtrip.
Qed.

Lemma preserves_Item_distinct field : preserves_items (Item_distinct field).
Proof. by apply preserves_roundtrip. Qed.

Lemma preserves_Item_aggregate p : preserves_items (Item_aggregate p).
Proof.
  apply preserves_roundtrip. intros w. by destruct (run_pipeline p (items w)).
Qed.

Create HintDb readonly.
#[local] Hint Resolve preserves_ret preserves_throw preserves_res_json
  preserves_console_error preserves_bind preserves_try_catch
  preserves_Item_find preserves_Item_findById preserves_Item_distinct
  preserves_Item_aggregate : readonly.

Lemma preserves_get_root req : preserves_items (get_root req).
Proof. unfold get_root. auto 20 with readonly. Qed.

Lemma preserves_get_by_id cast req : preserves_items (get_by_id cast req).
Proof.
  unfold get_by_id. apply preserves_try_catch; [|auto with readonly].
  apply preserves_bind; [auto with readonly|].
  intros [d|]; auto with readonly.
Qed.

Lemma preserves_get_filters_all req : preserves_items (get_filters_all req).
Proof. unfold get_filters_all. auto 40 with readonly. Qed.

Lemma preserves_post_filter req : preserves_items (post_filter req).
Proof. unfold post_filter. auto 20 with readonly. Qed.

Lemma preserves_get_stats_aggregate req :
  preserves_items (get_stats_aggregate req).
Proof. unfold get_stats_aggregate. auto 20 with readonly. Qed.

(** ** The handlers that take an identifier *)

Ltac run_handler w :=
  unfold try_catch, bind, res_json, ret, throw, console_error, roundtrip;
  destruct (faults w) as [|[?|] ?]; simpl.

Section Handlers.

Variable castObjectId : string -> error + string.
Variable castBody : doc -> error + doc.

Lemma get_by_id_run (req : request) (w : world) :
  (get_by_id castObjectId req w).1 =
  Resolved
    match castObjectId (params_id req) with
    | inl e => Response 500 (message_body (err_message e))
    | inr oid =>
        match next_fault w with
        | Some e => Response 500 (message_body (err_message e))
        | None =>
            match List.find (has_id oid) (items w) with
            | None => Response 404 (message_body "Item not found")
            | Some d => Response 200 (doc_json d)
            end
        end
    end.
Proof.
  unfold get_by_id, Item_findById, next_fault.
  destruct (castObjectId (params_id req)) as [e|oid]; [done|].
  run_handler w; by destruct (List.find (has_id oid) (items w)).
Qed.

(** C5.  GET /:id answers 500 when the identifier is malformed and when
    the store fails, 404 with the message "Item not found" when the
    store answers and no document has the identifier, and 200 with the
    document when one has it. *)
Theorem get_by_id_responses (req : request) (w : world) :
  (get_by_id castObjectId req w).1 =
  Resolved
    match castObjectId (params_id req) with
    | inl e => Response 500 (message_body (err_message e))
    | inr oid =>
        match next_fault w with
        | Some e => Response 500 (message_body (err_message e))
        | None =>
            match List.find (has_id oid) (items w) with
            | None => Response 404 (message_body "Item not found")
            | Some d => Response 200 (doc_json d)
            end
        end
    end
  ∧ ∀ oid, List.find (has_id oid) (items w) = None ↔
           ∀ d, d ∈ items w → has_id oid d = false.
Proof.
  split; [apply get_by_id_run|].
  intros oid. split.
  - intros H d Hd. apply (find_none _ _ H). by apply list_elem_of_In.
  - intros H. destruct (List.find _ _) as [d|] eqn:Hf; [|done].
    apply find_some in Hf as [Hin Hd].
    apply list_elem_of_In, H in Hin. congruence.
Qed.

(** C6.  PUT /:id answers 400 with "Failed to update item" when the
    identifier or the body is rejected by the casts or the store fails;
    when the store answers and no document has the identifier it answers
    200 with [null] and the collection is unchanged; when a document has
    it, it answers 200 with that document updated, which is also what
    the collection then holds in its place: every field of the update
    has its new value, [updatedAt] is refreshed, every other field is as
    it was. *)
Theorem put_by_id_responses (req : request) (w : world) :
  let r := put_by_id castObjectId castBody req w in
  (r.1, items r.2) =
    match castObjectId (params_id req), castBody (body req) with
    | inr oid, inr fields =>
        match next_fault w with
        | Some _ =>
            (Resolved (Response 400 (message_body "Failed to update item")),
             items w)
        | None =>
            match List.find (has_id oid) (items w) with
            | None => (Resolved (Response 200 JNull), items w)
            | Some old =>
                let new := fields ∪ <["updatedAt" := timestamp w]> old in
                (Resolved (Response 200 (doc_json new)),
                 replace_first (has_id oid) new (items w))
            end
        end
    | _, _ =>
        (Resolved (Response 400 (message_body "Failed to update item")),
         items w)
    end
  ∧ ∀ (fields old : doc) k,
      (fields ∪ <["updatedAt" := timestamp w]> old) !! k =
      match fields !! k with
      | Some v => Some v
      | None => if decide (k = "updatedAt") then Some (timestamp w)
                else old !! k
      end.
Proof.
  split.
  - unfold put_by_id, Item_findByIdAndUpdate, next_fault.
    destruct (castObjectId (params_id req)) as [e|oid]; [done|].
    destruct (castBody (body req)) as [e|fields]; [done|].
    run_handler w; by destruct (List.find (has_id oid) (items w)).
  - intros fields old k. rewrite lookup_union.
    destruct (fields !! k) as [v|]; simpl.
    + by destruct (<["updatedAt":=timestamp w]> old !! k).
    + rewrite (left_id None _).
      case_decide; subst; by simplify_map_eq.
Qed.

(** C10.  DELETE /:id answers 200 with "Item deleted" whenever the
    identifier is well formed and the store answers, whether or not a
    document has the identifier: the response does not depend on the
    collection, a second deletion is answered as the first, and no
    response has status 404.  When no document has the identifier the
    collection is unchanged. *)
Theorem delete_by_id_responses (req : request) (w : world) :
  let r := delete_by_id castObjectId req w in
  (r.1, items r.2) =
    match castObjectId (params_id req), next_fault w with
    | inr oid, None =>
        (Resolved (Response 200 (message_body "Item deleted")),
         remove_first (has_id oid) (items w))
    | _, _ =>
        (Resolved (Response 400 (message_body "Failed to delete item")),
         items w)
    end
  ∧ (∀ ds, (delete_by_id castObjectId req (with_items ds w)).1 = r.1)
  ∧ (∀ ds c t n,
        (delete_by_id castObjectId req
           (delete_by_id castObjectId req (World ds [] c t n)).2).1 =
        (delete_by_id castObjectId req (World ds [] c t n)).1)
  ∧ (∀ resp, r.1 = Resolved resp → status resp ≠ 404)
  ∧ (∀ oid ds, List.find (has_id oid) ds = None →
               remove_first (has_id oid) ds = ds).
Proof.
  assert (Hresp : ∀ w',
    (delete_by_id castObjectId req w').1 =
    Resolved
      match castObjectId (params_id req), next_fault w' with
      | inr oid, None => Response 200 (message_body "Item deleted")
      | _, _ => Response 400 (message_body "Failed to delete item")
      end).
  { intros w'. unfold delete_by_id, Item_findByIdAndDelete, next_fault.
    destruct (castObjectId (params_id req)) as [e|oid]; [done|].
    by run_handler w'. }
  intros r. subst r. split; [|split; [|split; [|split]]].
  - unfold delete_by_id, Item_findByIdAndDelete, next_fault.
    destruct (castObjectId (params_id req)) as [e|oid]; [done|].
    by run_handler w.
  - intros ds. by rewrite !Hresp.
  - intros ds c t n. rewrite !Hresp.
    unfold delete_by_id, Item_findByIdAndDelete.
    by destruct (castObjectId (params_id req)).
  - intros resp. rewrite Hresp. intros [= <-].
    destruct (castObjectId (params_id req)); [done|].
    by destruct (next_fault w).
  - intros oid ds. induction ds as [|d ds IH]; simpl; [done|].
    destruct (has_id oid d); [done|]. intros H. by rewrite IH.
Qed.

End Handlers.

(** ** Failure responses *)

Lemma resolves_within_res_json (P : response -> Prop) code v :
  P (Response code v) → resolves_within P (res_json code v).
Proof. intros H w. exact H. Qed.

Lemma resolves_within_bind {A} P (m : M A) (k : A -> M response) :
  (∀ a, resolves_within P (k a)) → resolves_within P (bind m k).
Proof.
  intros Hk w. unfold bind. destruct (m w) as [[a|e] w']; simpl; [|done].
  apply Hk.
Qed.

Lemma try_catch_logged P (m : M response) label code text w :
  resolves_within P m →
  ∃ r, (try_catch m (fun err => _ <- console_error label err ;;
                                res_json code (message_body text)) w).1
       = Resolved r
       ∧ (P r ∨ r = Response code (message_body text)).
Proof.
  intros Hm. unfold try_catch. specialize (Hm w).
  destruct (m w) as [[r|e] w']; simpl in *; eauto.
Qed.

Ltac fixed_failure :=
  apply try_catch_logged;
  repeat first
    [ apply resolves_within_res_json; reflexivity
    | apply resolves_within_bind; intros ? ].

(** Seven of the eight handlers answer a failure with a text of their own,
    whatever the error was. *)
Lemma fixed_failure_bodies castObjectId castBody objectId req w :
  (∃ r, (get_root req w).1 = Resolved r ∧
        (status r = 200 ∨ r = Response 500 (message_body "Server Error")))
  ∧ (∃ r, (post_root castBody objectId req w).1 = Resolved r ∧
          (status r = 201 ∨ r = Response 400 (message_body "Failed to add item")))
  ∧ (∃ r, (put_by_id castObjectId castBody req w).1 = Resolved r ∧
          (status r = 200 ∨
           r = Response 400 (message_body "Failed to update item")))
  ∧ (∃ r, (delete_by_id castObjectId req w).1 = Resolved r ∧
          (status r = 200 ∨
           r = Response 400 (message_body "Failed to delete item")))
  ∧ (∃ r, (get_filters_all req w).1 = Resolved r ∧
          (status r = 200 ∨
           r = Response 500 (message_body "Failed to load filters")))
  ∧ (∃ r, (post_filter req w).1 = Resolved r ∧
          (status r = 200 ∨
           r = Response 500 (message_body "Failed to filter data")))
  ∧ (∃ r, (get_stats_aggregate req w).1 = Resolved r ∧
          (status r = 200 ∨
           r = Response 500 (message_body "Failed to fetch statistics"))).
Proof.
  repeat split.
  - unfold get_root. fixed_failure.
  - unfold post_root. fixed_failure.
  - unfold put_by_id. fixed_failure.
  - unfold delete_by_id. fixed_failure.
  - unfold get_filters_all. fixed_failure.
  - unfold post_filter. fixed_failure.
  - unfold get_stats_aggregate. fixed_failure.
Qed.

(** GET /:id answers any error of the store or of the cast with that
    error's own message. *)
Lemma get_by_id_error_message castObjectId req w e :
  castObjectId (params_id req) = inl e
  ∨ (∃ oid, castObjectId (params_id req) = inr oid) ∧ next_fault w = Some e →
  (get_by_id castObjectId req w).1 =
  Resolved (Response 500 (message_body (err_message e))).
Proof.
  intros H. rewrite get_by_id_run.
  destruct H as [->|[[oid ->] ->]]; done.
Qed.

(** C4.  The other handlers answer failures with fixed texts, but GET /:id
    puts the error's own message in the body: for the malformed identifier
    [abc] the caller reads the object mapper's cast error, with the path
    and the model it names, and when the store refuses the connection the
    caller reads the address the driver tried. *)
Theorem get_by_id_exposes_error_message :
  (get_by_id example_castObjectId (Request "abc" ∅ ∅)
     (World [oil] [] [] 0 0)).1 =
  Resolved
    (Response 500
       (message_body
          "Cast to ObjectId failed for value abc (type string) at path _id for model Item"))
  ∧ (get_by_id example_castObjectId
       (Request "65f1c0de0000000000000000" ∅ ∅)
       (World [oil] [Some connection_refused] [] 0 0)).1 =
    Resolved
      (Response 500 (message_body "connect ECONNREFUSED 127.0.0.1:27017")).
Proof. split; reflexivity. Qed.

(** C9.  GET /, GET /:id, GET /filters/all, POST /filter and
    GET /stats/aggregate leave the collection as they found it, for every
    request and every world, whether the store answers or fails.  POST /,
    PUT /:id and DELETE /:id change it: a created document is appended, an
    updated one is replaced, a deleted one is gone. *)
Theorem read_handlers_preserve_items
    (castObjectId : string -> error + string) (req : request) (w : world) :
  (items (get_root req w).2 = items w
   ∧ items (get_by_id castObjectId req w).2 = items w
   ∧ items (get_filters_all req w).2 = items w
   ∧ items (post_filter req w).2 = items w
   ∧ items (get_stats_aggregate req w).2 = items w)
  ∧ items (post_root example_castBody example_objectId
             (Request "" ∅ {[ "topic" := JStr "oil" ]})
             (World [] [] [] 7 0)).2 =
    [ {[ "_id" := JStr "65f1c0de0000000000000000";
         "topic" := JStr "oil";
         "end_year" := JStr ""; "start_year" := JStr ""; "impact" := JStr "";
         "__v" := JNum 0; "createdAt" := JNum 7; "updatedAt" := JNum 7 ]} ]
  ∧ items (put_by_id example_castObjectId example_castBody
             (Request "65f1c0de0000000000000000" ∅ {[ "topic" := JStr "gas" ]})
             (World [oil] [] [] 7 0)).2 =
    [ {[ "_id" := JStr "65f1c0de0000000000000000";
         "topic" := JStr "gas"; "updatedAt" := JNum 7 ]} ]
  ∧ items (delete_by_id example_castObjectId
             (Request "65f1c0de0000000000000000" ∅ ∅)
             (World [oil] [] [] 7 0)).2 = [].
Proof.
  split; [|split; [|split]].
  - split; [apply preserves_get_root|].
    split; [apply preserves_get_by_id|].
    split; [apply preserves_get_filters_all|].
    split; [apply preserves_post_filter|apply preserves_get_stats_aggregate].
  - apply (f_equal (fun d => [d])). apply map_eq. intros k.
    vm_compute. reflexivity.
  - vm_compute. reflexivity.
  - reflexivity.
Qed.

(** ** Equality of values is an equivalence *)

Lemma json_nested_ind (P : json -> Prop) :
  P JNull → (∀ b, P (JBool b)) → (∀ q, P (JNum q)) → (∀ s, P (JStr s)) →
  (∀ l, Forall P l → P (JArr l)) →
  (∀ l, Forall (fun kv => P kv.2) l → P (JObj l)) →
  ∀ v, P v.
Proof.
  intros HN HB HQ HS HA HO. fix IH 1.
  intros [ |b|q|s|l|l];
    [exact HN | apply HB | apply HQ | apply HS | apply HA | apply HO].
  - induction l as [|x l IHl]; constructor; [apply IH | exact IHl].
  - induction l as [|[k x] l IHl]; constructor; [apply IH | exact IHl].
Qed.

Lemma json_eqb_refl a : json_eqb a a = true.
Proof.
  induction a as [ |b|q|s|l IH|l IH] using json_nested_ind; simpl.
  - done.
  - by destruct b.
  - apply Qeq_bool_refl.
  - apply String.eqb_refl.
  - induction IH as [|x l Hx _ IHl]; [done|]. by rewrite Hx, IHl.
  - induction IH as [|[k x] l Hx _ IHl]; [done|]. simpl in Hx.
    by rewrite String.eqb_refl, Hx, IHl.
Qed.

Lemma json_eqb_sym a b : json_eqb a b = json_eqb b a.
Proof.
  revert b.
  induction a as [ |x|x|x|l IH|l IH] using json_nested_ind;
    intros [ |y|y|y|l'|l']; simpl; try done.
  - by destruct x, y.
  - destruct (Qeq_bool x y) eqn:H1, (Qeq_bool y x) eqn:H2; try done.
    + apply Qeq_bool_sym in H1. congruence.
    + apply Qeq_bool_sym in H2. congruence.
  - apply String.eqb_sym.
  - revert l'. induction IH as [|x l Hx _ IHl]; intros [|y l']; try done.
    by rewrite Hx, IHl.
  - revert l'. induction IH as [|[k x] l Hx _ IHl]; intros [|[k' y] l'];
      try done.
    simpl in Hx. by rewrite Hx, IHl, (String.eqb_sym k k').
Qed.

Lemma json_eqb_trans a b c :
  json_eqb a b = true → json_eqb b c = true → json_eqb a c = true.
Proof.
  revert b c.
  induction a as [ |x|x|x|l IH|l IH] using json_nested_ind;
    intros [ |y|y|y|l'|l'] [ |z|z|z|l''|l'']; simpl; try done.
  - destruct x, y, z; done.
  - apply Qeq_bool_trans.
  - rewrite !String.eqb_eq. congruence.
  - revert l' l''.
    induction IH as [|x l Hx _ IHl]; intros [|y l'] [|z l'']; try done.
    rewrite !andb_true_iff. intros [H1 H2] [H3 H4]. eauto.
  - revert l' l''.
    induction IH as [|[k x] l Hx _ IHl];
      intros [|[k' y] l'] [|[k'' z] l'']; try done.
    simpl in Hx. rewrite !andb_true_iff, !String.eqb_eq.
    intros [[-> H1] H2] [[-> H3] H4]. eauto.
Qed.

(** ** Grouping *)

Lemma group_by_snoc path docs d :
  group_by path (docs ++ [d]) =
  add_to_group (field_value path d) d (group_by path docs).
Proof. unfold group_by. by rewrite foldl_snoc. Qed.

Lemma add_to_group_spec k d groups :
  distinct_keys groups →
  distinct_keys (add_to_group k d groups)
  ∧ ∀ k' ds', (k', ds') ∈ add_to_group k d groups →
      ((k', ds') ∈ groups ∧ json_eqb k k' = false)
      ∨ (∃ ds, (k', ds) ∈ groups ∧ ds' = ds ++ [d] ∧ json_eqb k k' = true)
      ∨ (k' = k ∧ ds' = [d]
         ∧ ∀ k'' ds'', (k'', ds'') ∈ groups → json_eqb k k'' = false).
Proof.
  induction groups as [|[k0 ds0] groups IH]; simpl.
  - intros _. split; [split; [|done]; intros ?? H; by apply elem_of_nil in H|].
    intros k' ds' H. apply list_elem_of_singleton in H as [= -> ->].
    right; right. repeat split. intros ?? H. by apply elem_of_nil in H.
  - intros [Hk0 Hd]. destruct (json_eqb k k0) eqn:Hk.
    + split; [done|]. intros k' ds' H.
      apply elem_of_cons in H as [[= -> ->]|H].
      * right; left. exists ds0. split; [left|done].
      * left. split; [by right|].
        destruct (json_eqb k k') eqn:Hkk'; [|done].
        rewrite <- (Hk0 _ _ H). symmetry.
        apply (json_eqb_trans k' k k0); [|done].
        by rewrite json_eqb_sym.
    + destruct (IH Hd) as [IHd IHm]. split.
      * split; [|done]. intros k' ds' H.
        destruct (IHm _ _ H) as [[H' _]|[(ds & H' & _)|(-> & _)]]; eauto.
      * intros k' ds' H. apply elem_of_cons in H as [[= -> ->]|H].
        -- left. split; [left|done].
        -- destruct (IHm _ _ H) as [[H' ?]|[(ds & H' & ? & ?)|(-> & -> & Hn)]].
           ++ left. split; [by right|done].
           ++ right; left. exists ds. split; [by right|done].
           ++ right; right. repeat split.
              intros k'' ds'' H''. apply elem_of_cons in H'' as [[= -> ->]|H''];
                eauto.
Qed.

Lemma add_to_group_keeps k d groups k' ds :
  (k', ds) ∈ groups → ∃ ds', (k', ds') ∈ add_to_group k d groups.
Proof.
  induction groups as [|[k0 ds0] groups IH]; simpl.
  - intros H. by apply elem_of_nil in H.
  - intros H. destruct (json_eqb k k0).
    + apply elem_of_cons in H as [[= -> ->]|H].
      * eexists. left.
      * eexists. by right.
    + apply elem_of_cons in H as [[= -> ->]|H].
      * eexists. left.
      * destruct (IH H) as [ds' H']. eexists. right. exact H'.
Qed.

Lemma add_to_group_finds k d groups :
  ∃ k' ds', (k', ds') ∈ add_to_group k d groups ∧ json_eqb k k' = true.
Proof.
  induction groups as [|[k0 ds0] groups IH]; simpl.
  - exists k, [d]. split; [left|apply json_eqb_refl].
  - destruct (json_eqb k k0) eqn:Hk.
    + eexists _, _. split; [left|done].
    + destruct IH as (k' & ds' & H & Hk'). eexists _, _. split; [right|]; done.
Qed.

Lemma filter_snoc (p : doc -> bool) docs d :
  List.filter p (docs ++ [d]) =
  List.filter p docs ++ (if p d then [d] else []).
Proof. rewrite List.filter_app. simpl. by destruct (p d). Qed.

Lemma filter_none (p : doc -> bool) docs :
  (∀ d, d ∈ docs → p d = false) → List.filter p docs = [].
Proof.
  induction docs as [|d docs IH]; simpl; [done|]. intros H.
  rewrite (H d) by left. apply IH. intros d' Hd'. apply H. by right.
Qed.

(** The buckets of [group_by]: their keys are pairwise different, each
    holds, in order, exactly the documents whose key equals its own, none
    is empty, and every document falls in one. *)
Lemma group_by_spec path docs :
  distinct_keys (group_by path docs)
  ∧ (∀ k ds, (k, ds) ∈ group_by path docs →
             ds = List.filter (same_key path k) docs ∧ ds ≠ [])
  ∧ (∀ d, d ∈ docs →
          ∃ k ds, (k, ds) ∈ group_by path docs ∧ same_key path k d = true).
Proof.
  induction docs as [|d docs (IHd & IHb & IHc)] using rev_ind.
  - split; [done|]. split.
    + intros k ds H. by apply elem_of_nil in H.
    + intros d H. by apply elem_of_nil in H.
  - rewrite group_by_snoc.
    destruct (add_to_group_spec (field_value path d) d _ IHd) as [Hd Hm].
    split; [done|]. split.
    + intros k ds H. rewrite filter_snoc. unfold same_key at 2.
      destruct (Hm _ _ H) as [[H' Hk]|[(ds0 & H' & -> & Hk)|(-> & -> & Hn)]].
      * rewrite Hk, app_nil_r. by apply IHb.
      * rewrite Hk. destruct (IHb _ _ H') as [<- _]. split; [done|].
        by destruct ds0.
      * rewrite json_eqb_refl. split; [|done].
        rewrite filter_none; [done|]. intros d0 Hd0.
        destruct (IHc _ Hd0) as (k0 & ds0 & H0 & Hk0).
        unfold same_key in *.
        destruct (json_eqb (field_value path d0) (field_value path d)) eqn:He;
          [|done].
        rewrite <- (Hn _ _ H0). symmetry.
        apply (json_eqb_trans _ (field_value path d0)); [|done].
        by rewrite json_eqb_sym.
    + intros d0 H0. apply elem_of_app in H0 as [H0|H0].
      * destruct (IHc _ H0) as (k & ds & H & Hk).
        destruct (add_to_group_keeps (field_value path d) d _ _ _ H) as [ds' H'].
        eauto.
      * apply list_elem_of_singleton in H0 as ->.
        apply add_to_group_finds.
Qed.

(** Every document lands in one bucket. *)
Lemma add_to_group_length k d groups :
  sum_list (length ∘ snd <$> add_to_group k d groups) =
  S (sum_list (length ∘ snd <$> groups)).
Proof.
  induction groups as [|[k0 ds0] groups IH]; [done|].
  cbn [add_to_group]. destruct (json_eqb k k0); rewrite !fmap_cons; cbn.
  - rewrite length_app. simpl. lia.
  - rewrite IH. lia.
Qed.

Lemma group_by_length path docs :
  sum_list (length ∘ snd <$> group_by path docs) = length docs.
Proof.
  induction docs as [|d docs IH] using rev_ind; [done|].
  rewrite group_by_snoc, add_to_group_length, IH, length_app. simpl. lia.
Qed.

(** ** The stages of the four pipelines *)

Lemma object_literal_one {A} k (v : A) : object_literal [(k, v)] = {[k := v]}.
Proof. unfold object_literal. simpl. apply insert_empty. Qed.

(** The second [$ne] of [{ $ne: null, $ne: "" }] replaces the first. *)
Lemma object_literal_twice {A} k (v1 v2 : A) :
  object_literal [(k, v1); (k, v2)] = {[k := v2]}.
Proof.
  unfold object_literal. simpl. by rewrite insert_insert_eq, insert_empty.
Qed.

Lemma conds_hold_ne path arg (d : doc) :
  conds_hold {[path := {["$ne" := arg]}]} d =
  Some (negb (field_equals arg (d !! path))).
Proof.
  unfold conds_hold, operators_hold.
  rewrite map_to_list_singleton. cbn [fmap list_fmap all_hold fst snd].
  rewrite map_to_list_singleton. simpl.
  by rewrite !andb_true_r.
Qed.

Lemma match_stage_ne path arg docs :
  match_stage {[path := {["$ne" := arg]}]} docs =
  Some (List.filter (fun d => negb (field_equals arg (d !! path))) docs).
Proof.
  induction docs as [|d docs IH]; simpl; [done|].
  rewrite conds_hold_ne, IH. by destruct (negb _).
Qed.

Lemma avgIntensityByRegion_run docs :
  run_pipeline avgIntensityByRegion_pipeline docs =
  Some (sort_stage "avgIntensity" (-1)
          (group_stage "region" "avgIntensity" (Avg "intensity")
             (List.filter (has_value "intensity") docs))).
Proof.
  unfold avgIntensityByRegion_pipeline, run_pipeline, run_stage.
  by rewrite !object_literal_one, match_stage_ne.
Qed.

Lemma avgRelevanceByYear_run docs :
  run_pipeline avgRelevanceByYear_pipeline docs =
  Some (sort_stage "_id" 1
          (group_stage "end_year" "avgRelevance" (Avg "relevance")
             (List.filter
                (fun d => negb (field_equals (JStr "") (d !! "relevance")))
                docs))).
Proof.
  unfold avgRelevanceByYear_pipeline, run_pipeline, run_stage.
  by rewrite object_literal_one, object_literal_twice, match_stage_ne.
Qed.

Lemma countByTopic_run docs :
  run_pipeline countByTopic_pipeline docs =
  Some (sort_stage "count" (-1) (group_stage "topic" "count" (Sum 1) docs)).
Proof. reflexivity. Qed.

(** ** Sorting *)

Lemma bson_compare_antisym a b :
  bson_compare a b = CompOpp (bson_compare b a).
Proof.
  destruct a as [ |x|x|x|l|l], b as [ |y|y|y|l'|l']; simpl; try done.
  - by destruct x, y.
  - symmetry. apply Qcompare_antisym.
  - apply String.compare_antisym.
Qed.

#[global] Instance sort_le_total key dir : Total (sort_le key dir).
Proof.
  intros d1 d2. unfold sort_le. destruct (0 <? dir)%Z.
  - destruct (bson_compare (field_value key d1) (field_value key d2)) eqn:H;
      [left; done|left; done|right].
    rewrite bson_compare_antisym, H. done.
  - destruct (bson_compare (field_value key d2) (field_value key d1)) eqn:H;
      [left; done|left; done|right].
    rewrite bson_compare_antisym, H. done.
Qed.

(** [$sort] returns its input rearranged, each document before the next
    in the order asked for. *)
Lemma sort_stage_sorted key dir docs :
  Sorted (sort_le key dir) (sort_stage key dir docs)
  ∧ sort_stage key dir docs ≡ₚ docs.
Proof.
  split; [apply Sorted_merge_sort, _|apply merge_sort_Permutation].
Qed.

(** ** Sums *)

Lemma Qsum_Permutation (l l' : list Q) : l ≡ₚ l' → (Qsum l == Qsum l')%Q.
Proof.
  induction 1 as [|x l l' _ IH|x y l|l l' l'' _ IH1 _ IH2]; simpl.
  - reflexivity.
  - by rewrite IH.
  - ring.
  - by rewrite IH1.
Qed.

Lemma Qsum_ones {A} (l : list A) :
  (Qsum ((fun _ => 1%Q) <$> l) == inject_Z (Z.of_nat (length l)))%Q.
Proof.
  induction l as [|x l IH]; [reflexivity|].
  rewrite fmap_cons. cbn [Qsum foldr length]. fold (Qsum ((fun _ => 1%Q) <$> l)).
  rewrite IH, Nat2Z.inj_succ, <- Z.add_1_l, inject_Z_plus. reflexivity.
Qed.

Lemma Qred_inject_Z z : Qred (inject_Z z) = inject_Z z.
Proof. apply Qred_identity. simpl. apply Z.gcd_1_r. Qed.

Lemma count_ones {A} (l : list A) :
  Qred (Qsum ((fun _ => 1%Q) <$> l)) = inject_Z (Z.of_nat (length l)).
Proof.
  rewrite <- Qred_inject_Z. apply Qred_complete, Qsum_ones.
Qed.

(** ** The statistics *)

Lemma filter_filter (p q : doc -> bool) docs :
  List.filter p (List.filter q docs) = List.filter (fun d => q d && p d) docs.
Proof.
  induction docs as [|d docs IH]; simpl; [done|].
  destruct (q d); simpl; [|done]. destruct (p d); by rewrite IH.
Qed.

Lemma group_stage_entry path out acc docs r :
  r ∈ group_stage path out acc docs →
  ∃ k ds, r = <[out := accumulate acc ds]> {["_id" := k]}
          ∧ ds = List.filter (same_key path k) docs ∧ ds ≠ [].
Proof.
  unfold group_stage. intros H.
  apply list_elem_of_fmap in H as ([k ds] & -> & H).
  apply (proj1 (proj2 (group_by_spec path docs))) in H. eauto.
Qed.

Lemma group_stage_covers path out acc docs d :
  out ≠ "_id" → d ∈ docs →
  ∃ r k, r ∈ group_stage path out acc docs
         ∧ r !! "_id" = Some k ∧ same_key path k d = true.
Proof.
  intros Hne Hd.
  destruct (proj2 (proj2 (group_by_spec path docs)) d Hd) as (k & ds & H & Hk).
  exists (<[out := accumulate acc ds]> {["_id" := k]}), k. split; [|split].
  - unfold group_stage. apply list_elem_of_fmap. by exists (k, ds).
  - by rewrite lookup_insert_ne, lookup_singleton_eq.
  - done.
Qed.

Lemma counts_total (groups : list (json * list doc)) :
  (Qsum (count_of <$>
           ((fun g => <["count" := accumulate (Sum 1) g.2]> {["_id" := g.1]})
              <$> groups))
   == inject_Z (Z.of_nat (sum_list (length ∘ snd <$> groups))))%Q.
Proof.
  induction groups as [|[k ds] groups IH]; [reflexivity|].
  rewrite !fmap_cons. cbn [Qsum foldr sum_list sum_list_with].
  fold (Qsum (count_of <$>
           ((fun g => <["count" := accumulate (Sum 1) g.2]> {["_id" := g.1]})
              <$> groups))).
  rewrite IH. unfold count_of at 1. rewrite lookup_insert_eq.
  cbn [accumulate snd compose]. rewrite count_ones.
  rewrite Nat2Z.inj_add, inject_Z_plus. reflexivity.
Qed.

(** C7.  countByTopic has no [$match] stage: every document of the
    collection falls in the bucket of its topic, [null] for a document
    without one.  Each entry carries the number of documents of its
    bucket, and the counts add up to the size of the collection. *)
Theorem countByTopic_counts_sum (docs : list doc) :
  ∃ result,
    run_pipeline countByTopic_pipeline docs = Some result
    ∧ (∀ r, r ∈ result →
            ∃ k ds,
              r = <["count" := JNum (inject_Z (Z.of_nat (length ds)))]>
                    {["_id" := k]}
              ∧ ds = List.filter (same_key "topic" k) docs ∧ ds ≠ [])
    ∧ (∀ d, d ∈ docs →
            ∃ r k, r ∈ result
                   ∧ r !! "_id" = Some k ∧ same_key "topic" k d = true)
    ∧ (Qsum (count_of <$> result) == inject_Z (Z.of_nat (length docs)))%Q.
Proof.
  eexists. split; [apply countByTopic_run|].
  pose proof (proj2 (sort_stage_sorted "count" (-1)
    (group_stage "topic" "count" (Sum 1) docs))) as Hperm.
  split; [|split].
  - intros r Hr. rewrite Hperm in Hr.
    apply group_stage_entry in Hr as (k & ds & -> & Hds & Hne).
    exists k, ds. cbn [accumulate]. by rewrite count_ones.
  - intros d Hd.
    destruct (group_stage_covers "topic" "count" (Sum 1) docs d)
      as (r & k & Hr & Hid & Hk); [done|done|].
    exists r, k. by rewrite Hperm.
  - rewrite (Qsum_Permutation _ (count_of <$>
               group_stage "topic" "count" (Sum 1) docs))
      by (by apply fmap_Permutation).
    unfold group_stage. rewrite counts_total, group_by_length. reflexivity.
Qed.

(** C8.  avgIntensityByRegion: every entry is the mean of intensity over
    the documents of one region whose intensity is there and not [null],
    the sum of their numbers divided by how many they are; every such
    document has its region among the entries; a document whose intensity
    is [null] or missing changes nothing wherever it stands in the
    collection; and the two Asia records, 3 and 5, give the single entry
    Asia with mean 4. *)
Theorem avgIntensityByRegion_mean (docs : list doc) :
  ∃ result,
    run_pipeline avgIntensityByRegion_pipeline docs = Some result
    ∧ (∀ r, r ∈ result →
            ∃ k,
              r = <["avgIntensity" :=
                      average
                        (numeric_values "intensity"
                           (List.filter
                              (fun d => has_value "intensity" d
                                        && same_key "region" k d) docs))]>
                    {["_id" := k]}
              ∧ ∃ d, d ∈ docs ∧ has_value "intensity" d = true
                     ∧ same_key "region" k d = true)
    ∧ (∀ d, d ∈ docs → has_value "intensity" d = true →
            ∃ r k, r ∈ result
                   ∧ r !! "_id" = Some k ∧ same_key "region" k d = true)
    ∧ (∀ l1 d l2, has_value "intensity" d = false →
                  run_pipeline avgIntensityByRegion_pipeline (l1 ++ d :: l2) =
                  run_pipeline avgIntensityByRegion_pipeline (l1 ++ l2))
    ∧ (∀ qs q, average (q :: qs) =
               JNum (Qred (Qsum (q :: qs)
                           / inject_Z (Z.of_nat (length (q :: qs))))))
    ∧ run_pipeline avgIntensityByRegion_pipeline [asia3; asia5] =
      Some [ <["avgIntensity" := JNum 4]> {["_id" := JStr "Asia"]} ].
Proof.
  eexists. split; [apply avgIntensityByRegion_run|].
  pose proof (proj2 (sort_stage_sorted "avgIntensity" (-1)
    (group_stage "region" "avgIntensity" (Avg "intensity")
       (List.filter (has_value "intensity") docs)))) as Hperm.
  split; [|split; [|split; [|split]]].
  - intros r Hr. rewrite Hperm in Hr.
    apply group_stage_entry in Hr as (k & ds & -> & Hds & Hne).
    rewrite filter_filter in Hds. exists k. split.
    + cbn [accumulate]. by rewrite Hds.
    + destruct ds as [|d ds]; [done|].
      assert (Hd : d ∈ d :: ds) by left. rewrite Hds in Hd.
      apply list_elem_of_In, List.filter_In in Hd as [Hd Hp].
      apply andb_true_iff in Hp as [? ?].
      exists d. by rewrite list_elem_of_In.
  - intros d Hd Hv.
    destruct (group_stage_covers "region" "avgIntensity" (Avg "intensity")
                (List.filter (has_value "intensity") docs) d)
      as (r & k & Hr & Hid & Hk); [done| |].
    { apply list_elem_of_In, List.filter_In. by rewrite <- list_elem_of_In. }
    exists r, k. by rewrite Hperm.
  - intros l1 d l2 Hv. rewrite !avgIntensityByRegion_run.
    rewrite !List.filter_app. simpl. by rewrite Hv.
  - done.
  - vm_compute. reflexivity.
Qed.

(** C2.  The [$match] stage of avgRelevanceByYear is written with [$ne]
    twice, so only the second, the comparison with the empty string,
    reaches the store.  A collection whose only document has
    [end_year: "2020"] and no relevance yields the entry 2020 with a
    [null] mean, where excluding the document would yield no entry. *)
Theorem avgRelevanceByYear_keeps_missing_relevance :
  object_literal [("$ne", JNull); ("$ne", JStr "")] = {["$ne" := JStr ""]}
  ∧ has_value "relevance" y2020 = false
  ∧ run_pipeline avgRelevanceByYear_pipeline [y2020] =
    Some [ <["avgRelevance" := JNull]> {["_id" := JStr "2020"]} ]
  ∧ avgRelevanceByYear_spec [y2020] = [].
Proof.
  split; [apply object_literal_twice|].
  split; [reflexivity|]. split; [|reflexivity].
  vm_compute. reflexivity.
Qed.

(** What the code of avgRelevanceByYear does keep of its description: the
    result is ordered by ascending group key. *)
Lemma avgRelevanceByYear_sorted (docs : list doc) :
  ∃ result,
    run_pipeline avgRelevanceByYear_pipeline docs = Some result
    ∧ Sorted (sort_le "_id" 1) result.
Proof.
  eexists. split; [apply avgRelevanceByYear_run|].
  apply sort_stage_sorted.
Qed.

(** ** Worked requests *)

Example listFilter_example :
  listFilter {[ "country" := JStr "India"; "sector" := JStr "";
                "page" := JStr "2" ]}
  = {[ "country" := JStr "India" ]}.
Proof. vm_compute. reflexivity. Qed.

Example chartFilter_example :
  chartFilter {[ "source" := JStr "EIA"; "start_year" := JStr "2020";
                 "topic" := JNull ]}
  = {[ "source" := JStr "EIA" ]}.
Proof. vm_compute. reflexivity. Qed.

Example get_by_id_found :
  (get_by_id example_castObjectId (Request "65f1c0de0000000000000000" ∅ ∅)
     (World [oil] [] [] 0 0)).1 =
  Resolved (Response 200 (doc_json oil)).
Proof. reflexivity. Qed.

Example get_by_id_not_found :
  (get_by_id example_castObjectId (Request "65f1c0de00000000000000ff" ∅ ∅)
     (World [oil] [] [] 0 0)).1 =
  Resolved (Response 404 (message_body "Item not found")).
Proof. reflexivity. Qed.

Example put_by_id_not_found :
  put_by_id example_castObjectId example_castBody
    (Request "65f1c0de00000000000000ff" ∅ {[ "topic" := JStr "gas" ]})
    (World [oil] [] [] 7 0) =
  (Resolved (Response 200 JNull), World [oil] [] [] 7 0).
Proof. reflexivity. Qed.

Example delete_by_id_not_found :
  delete_by_id example_castObjectId
    (Request "65f1c0de00000000000000ff" ∅ ∅) (World [oil] [] [] 7 0) =
  (Resolved (Response 200 (message_body "Item deleted")),
   World [oil] [] [] 7 0).
Proof. reflexivity. Qed.

Example delete_by_id_malformed :
  (delete_by_id example_castObjectId (Request "abc" ∅ ∅)
     (World [oil] [] [] 7 0)).1 =
  Resolved (Response 400 (message_body "Failed to delete item")).
Proof. reflexivity. Qed.

Example countByTopic_example :
  run_pipeline countByTopic_pipeline [oil; asia3; oil; asia5] =
  Some [ <["count" := JNum 2]> {["_id" := JStr "oil"]};
         <["count" := JNum 2]> {["_id" := JNull]} ].
Proof. vm_compute. reflexivity. Qed.

(** * Further properties of the router *)

(** ** Creating, updating and deleting *)

Ltac open_world w :=
  destruct w as [ds fs c t n]; destruct fs as [|[?|] ?]; simpl in *.


Lemma put_by_id_run castObjectId castBody (req : request) (w : world) :
  put_by_id castObjectId castBody req w =
  match castObjectId (params_id req), castBody (body req) with
  | inr oid, inr fields =>
      match first_fault 1 (faults w) with
      | Some e =>
          (Resolved (Response 400 (message_body "Failed to update item")),
           with_console (console w ++ [("Error updating item:", e)])
             (after_trips 1 w))
      | None =>
          match List.find (has_id oid) (items w) with
          | None => (Resolved (Response 200 JNull), after_trips 1 w)
          | Some old =>
              let new := updated_item fields old w in
              (Resolved (Response 200 (doc_json new)),
               with_items (replace_first (has_id oid) new (items w))
                 (after_trips 1 w))
          end
      end
  | inl e, _ | inr _, inl e =>
      (Resolved (Response 400 (message_body "Failed to update item")),
       with_console (console w ++ [("Error updating item:", e)]) w)
  end.
Proof.
  unfold put_by_id, Item_findByIdAndUpdate, try_catch, bind, res_json, ret,
    throw, console_error, roundtrip, after_trips, updated_item, timestamp.
  destruct (castObjectId (params_id req)) as [e|oid];
    [by destruct (castBody (body req))|].
  destruct (castBody (body req)) as [e|fields]; [done|].
  open_world w; try reflexivity;
    by destruct (List.find (has_id oid) ds).
Qed.

Lemma delete_by_id_run castObjectId (req : request) (w : world) :
  delete_by_id castObjectId req w =
  match castObjectId (params_id req) with
  | inr oid =>
      match first_fault 1 (faults w) with
      | Some e =>
          (Resolved (Response 400 (message_body "Failed to delete item")),
           with_console (console w ++ [("Error deleting item:", e)])
             (after_trips 1 w))
      | None =>
          (Resolved (Response 200 (message_body "Item deleted")),
           with_items (remove_first (has_id oid) (items w)) (after_trips 1 w))
      end
  | inl e =>
      (Resolved (Response 400 (message_body "Failed to delete item")),
       with_console (console w ++ [("Error deleting item:", e)]) w)
  end.
Proof.
  unfold delete_by_id, Item_findByIdAndDelete, try_catch, bind, res_json, ret,
    throw, console_error, roundtrip, after_trips.
  destruct (castObjectId (params_id req)) as [e|oid]; [done|].
  open_world w; reflexivity.
Qed.

Lemma get_by_id_world castObjectId (req : request) (w : world) :
  get_by_id castObjectId req w =
  match castObjectId (params_id req) with
  | inr oid =>
      match first_fault 1 (faults w) with
      | Some e =>
          (Resolved (Response 500 (message_body (err_message e))),
           after_trips 1 w)
      | None =>
          (Resolved
             match List.find (has_id oid) (items w) with
             | None => Response 404 (message_body "Item not found")
             | Some d => Response 200 (doc_json d)
             end,
           after_trips 1 w)
      end
  | inl e => (Resolved (Response 500 (message_body (err_message e))), w)
  end.
Proof.
  unfold get_by_id, Item_findById, try_catch, bind, res_json, ret, throw,
    roundtrip, after_trips.
  destruct (castObjectId (params_id req)) as [e|oid]; [done|].
  open_world w; try reflexivity; by destruct (List.find (has_id oid) ds).
Qed.




Lemma updated_item_lookup (fields old : doc) w k :
  updated_item fields old w !! k =
  match fields !! k with
  | Some v => Some v
  | None => if decide (k = "updatedAt") then Some (timestamp w) else old !! k
  end.
Proof.
  unfold updated_item. rewrite lookup_union.
  destruct (fields !! k) as [v|]; simpl.
  - by destruct (<["updatedAt":=timestamp w]> old !! k).
  - rewrite (left_id None _). case_decide; subst; by simplify_map_eq.
Qed.

Lemma has_id_updated_item (fields old : doc) w oid :
  fields !! "_id" = None →
  has_id oid (updated_item fields old w) = has_id oid old.
Proof.
  intros H. unfold has_id. by rewrite updated_item_lookup, H.
Qed.


Lemma replace_first_insert (p : doc -> bool) new ds old :
  List.find p ds = Some old →
  ∃ i, ds !! i = Some old
       ∧ replace_first p new ds = <[i := new]> ds
       ∧ ∀ j d, (j < i)%nat → ds !! j = Some d → p d = false.
Proof.
  induction ds as [|d ds IH]; simpl; [done|].
  destruct (p d) eqn:Hp.
  - intros [= ->]. exists 0%nat. repeat split. intros j d ?. lia.
  - intros H. destruct (IH H) as (i & Hi & Hr & Hb).
    exists (S i). split; [done|]. split; [by rewrite Hr|].
    intros [|j] d' Hj; simpl; [by intros [= <-]|].
    apply Hb. lia.
Qed.

Lemma remove_first_delete (p : doc -> bool) ds old :
  List.find p ds = Some old →
  ∃ i, ds !! i = Some old
       ∧ remove_first p ds = delete i ds
       ∧ ∀ j d, (j < i)%nat → ds !! j = Some d → p d = false.
Proof.
  induction ds as [|d ds IH]; simpl; [done|].
  destruct (p d) eqn:Hp.
  - intros [= ->]. exists 0%nat. repeat split. intros j d ?. lia.
  - intros H. destruct (IH H) as (i & Hi & Hr & Hb).
    exists (S i). split; [done|]. split; [by rewrite Hr|].
    intros [|j] d' Hj; simpl; [by intros [= <-]|].
    apply Hb. lia.
Qed.

Lemma find_replace_first (p : doc -> bool) new ds old :
  List.find p ds = Some old → p new = true →
  List.find p (replace_first p new ds) = Some new.
Proof.
  induction ds as [|d ds IH]; simpl; [done|].
  destruct (p d) eqn:Hp; simpl.
  - intros _ ->. done.
  - rewrite Hp. apply IH.
Qed.




Lemma find_remove_first_unique oid ds :
  (length (List.filter (has_id oid) ds) ≤ 1)%nat →
  List.find (has_id oid) (remove_first (has_id oid) ds) = None.
Proof.
  induction ds as [|d ds IH]; simpl; [done|].
  destruct (has_id oid d) eqn:Hd; simpl.
  - intros H. destruct (List.find _ ds) as [d'|] eqn:Hf; [|done].
    apply find_some in Hf as [Hin Hd'].
    assert (In d' (List.filter (has_id oid) ds))
      by (apply List.filter_In; done).
    destruct (List.filter (has_id oid) ds); [done|simpl in H; lia].
  - rewrite Hd. apply IH.
Qed.




(** X3.  After PUT /:id has updated a record, GET /:id with the same
    identifier returns the document PUT answered with: the stored record
    overlaid with the cast fields of the body.  The body must not set
    [_id], and the store must answer. *)
Theorem update_then_get_by_id
    (castObjectId : string -> error + string) (castBody : doc -> error + doc)
    (req : request) (w : world) (oid : string) (fields old : doc) :
  castObjectId (params_id req) = inr oid →
  castBody (body req) = inr fields →
  fields !! "_id" = None →
  faults w = [] →
  List.find (has_id oid) (items w) = Some old →
  let r := put_by_id castObjectId castBody req w in
  r.1 = Resolved (Response 200 (doc_json (updated_item fields old w)))
  ∧ (get_by_id castObjectId req r.2).1 = r.1.
Proof.
  intros Hid Hbody Hno Hfaults Hfind r. subst r.
  rewrite put_by_id_run, Hid, Hbody, Hfaults. simpl. rewrite Hfind. simpl.
  split; [done|].
  rewrite get_by_id_world, Hid. simpl.
  unfold after_trips. rewrite Hfaults. simpl.
  rewrite (find_replace_first _ _ _ old); [done|done|].
  rewrite has_id_updated_item by done.
  by apply find_some in Hfind as [_ ?].
Qed.

Lemma update_then_get_by_id_example :
  let req := Request "65f1c0de0000000000000000" ∅ {[ "topic" := JStr "gas" ]} in
  let w := World [oil] [] [] 7 0 in
  let r := put_by_id example_castObjectId example_castBody req w in
  r.1 = Resolved (Response 200
          (doc_json (updated_item {[ "topic" := JStr "gas" ]} oil w)))
  ∧ (get_by_id example_castObjectId req r.2).1 = r.1.
Proof.
  intros req w.
  apply (update_then_get_by_id example_castObjectId example_castBody req w
           "65f1c0de0000000000000000" {[ "topic" := JStr "gas" ]} oil);
    reflexivity.
Defined.

(** X4.  A successful PUT /:id rewrites one position of the collection,
    that of the first document with the identifier: the collection keeps
    its length and its order, every other document is untouched, and in
    the rewritten document a field the body does not supply keeps its
    value, [updatedAt] apart. *)
Theorem put_by_id_replaces_one
    (castObjectId : string -> error + string) (castBody : doc -> error + doc)
    (req : request) (w : world) (oid : string) (fields old : doc) :
  castObjectId (params_id req) = inr oid →
  castBody (body req) = inr fields →
  first_fault 1 (faults w) = None →
  List.find (has_id oid) (items w) = Some old →
  let after := items (put_by_id castObjectId castBody req w).2 in
  ∃ i, items w !! i = Some old
       ∧ after = <[i := updated_item fields old w]> (items w)
       ∧ length after = length (items w)
       ∧ (∀ j, j ≠ i → after !! j = items w !! j)
       ∧ (∀ k, fields !! k = None → k ≠ "updatedAt" →
               updated_item fields old w !! k = old !! k).
Proof.
  intros Hid Hbody Hfault Hfind after. subst after.
  rewrite put_by_id_run, Hid, Hbody, Hfault, Hfind. simpl.
  destruct (replace_first_insert (has_id oid) (updated_item fields old w)
              _ _ Hfind) as (i & Hi & Hr & _).
  exists i. rewrite Hr. split; [done|]. split; [done|].
  split; [apply length_insert|]. split.
  - intros j Hj. by apply list_lookup_insert_ne.
  - intros k Hk Hne. rewrite updated_item_lookup, Hk. by case_decide.
Qed.

Lemma put_by_id_replaces_one_example :
  let req := Request "65f1c0de0000000000000000" ∅ {[ "topic" := JStr "gas" ]} in
  let w := World [asia3; oil; asia5] [] [] 7 0 in
  let after := items (put_by_id example_castObjectId example_castBody req w).2 in
  ∃ i, items w !! i = Some oil
       ∧ after = <[i := updated_item {[ "topic" := JStr "gas" ]} oil w]> (items w)
       ∧ length after = length (items w)
       ∧ (∀ j, j ≠ i → after !! j = items w !! j)
       ∧ (∀ k, ({[ "topic" := JStr "gas" ]} : doc) !! k = None →
               k ≠ "updatedAt" →
               updated_item {[ "topic" := JStr "gas" ]} oil w !! k = oil !! k).
Proof.
  intros req w.
  apply (put_by_id_replaces_one example_castObjectId example_castBody req w
           "65f1c0de0000000000000000" {[ "topic" := JStr "gas" ]} oil);
    reflexivity.
Defined.

(** X5.  After DELETE /:id, GET /:id with the same identifier answers 404
    "Item not found", provided the identifier is well formed, the store
    answers, and at most one document carries the identifier. *)
Theorem delete_then_get_by_id
    (castObjectId : string -> error + string)
    (req : request) (w : world) (oid : string) :
  castObjectId (params_id req) = inr oid →
  faults w = [] →
  (length (List.filter (has_id oid) (items w)) ≤ 1)%nat →
  let r := delete_by_id castObjectId req w in
  r.1 = Resolved (Response 200 (message_body "Item deleted"))
  ∧ (get_by_id castObjectId req r.2).1 =
    Resolved (Response 404 (message_body "Item not found")).
Proof.
  intros Hid Hfaults Huniq r. subst r.
  rewrite delete_by_id_run, Hid, Hfaults. simpl. split; [done|].
  rewrite get_by_id_world, Hid. simpl.
  unfold after_trips. rewrite Hfaults. simpl.
  by rewrite find_remove_first_unique.
Qed.

Lemma delete_then_get_by_id_example :
  let req := Request "65f1c0de0000000000000000" ∅ ∅ in
  let w := World [asia3; oil] [] [] 7 0 in
  let r := delete_by_id example_castObjectId req w in
  r.1 = Resolved (Response 200 (message_body "Item deleted"))
  ∧ (get_by_id example_castObjectId req r.2).1 =
    Resolved (Response 404 (message_body "Item not found")).
Proof.
  intros req w.
  apply (delete_then_get_by_id example_castObjectId req w
           "65f1c0de0000000000000000"); [reflexivity|reflexivity|].
  vm_compute. lia.
Defined.

(** X6.  A DELETE /:id that finds a document removes that one document,
    the first with the identifier, and leaves the others in their order:
    the collection is one shorter. *)
Theorem delete_by_id_removes_one
    (castObjectId : string -> error + string)
    (req : request) (w : world) (oid : string) (d : doc) :
  castObjectId (params_id req) = inr oid →
  first_fault 1 (faults w) = None →
  List.find (has_id oid) (items w) = Some d →
  let after := items (delete_by_id castObjectId req w).2 in
  ∃ i, items w !! i = Some d
       ∧ after = delete i (items w)
       ∧ S (length after) = length (items w)
       ∧ (∀ j, (j < i)%nat → after !! j = items w !! j)
       ∧ (∀ j, (i ≤ j)%nat → after !! j = items w !! S j).
Proof.
  intros Hid Hfault Hfind after. subst after.
  rewrite delete_by_id_run, Hid, Hfault. simpl.
  destruct (remove_first_delete (has_id oid) _ _ Hfind) as (i & Hi & Hr & _).
  exists i. rewrite Hr. split; [done|]. split; [done|]. split; [|split].
  - rewrite length_delete by eauto.
    apply lookup_lt_Some in Hi. lia.
  - intros j Hj. by apply list_lookup_delete_lt.
  - intros j Hj. by apply list_lookup_delete_ge.
Qed.

Lemma delete_by_id_removes_one_example :
  let req := Request "65f1c0de0000000000000000" ∅ ∅ in
  let w := World [asia3; oil; asia5] [] [] 7 0 in
  let after := items (delete_by_id example_castObjectId req w).2 in
  ∃ i, items w !! i = Some oil
       ∧ after = delete i (items w)
       ∧ S (length after) = length (items w)
       ∧ (∀ j, (j < i)%nat → after !! j = items w !! j)
       ∧ (∀ j, (i ≤ j)%nat → after !! j = items w !! S j).
Proof.
  intros req w.
  apply (delete_by_id_removes_one example_castObjectId req w
           "65f1c0de0000000000000000" oil); reflexivity.
Defined.



(** ** Listing *)




(** ** Distinct values *)

Lemma distinct_values_snoc field ds (d : doc) :
  distinct_values field (ds ++ [d]) =
  match d !! field with
  | Some v =>
      if existsb (json_eqb v) (distinct_values field ds)
      then distinct_values field ds
      else distinct_values field ds ++ [v]
  | None => distinct_values field ds
  end.
Proof. unfold distinct_values. by rewrite foldl_snoc. Qed.

Lemma existsb_false_all (v : json) seen :
  existsb (json_eqb v) seen = false ↔ ∀ x, x ∈ seen → json_eqb v x = false.
Proof.
  induction seen as [|y seen IH]; simpl.
  - split; [|done]. intros _ x H. by apply elem_of_nil in H.
  - rewrite orb_false_iff, IH. split.
    + intros [H1 H2] x Hx. apply elem_of_cons in Hx as [->|Hx]; eauto.
    + intros H. split; [apply H; left|intros x Hx; apply H; by right].
Qed.

(** X9.  The values [Item.distinct(field)] lists: no two of them are
    equal, each is the value of the field in some document, the value of
    the field in any document equals one of them, and a field that no
    document has, as [swot], gives the empty list. *)
Theorem distinct_values_spec (field : string) (ds : list doc) :
  (∀ i j x y, (i < j)%nat →
              distinct_values field ds !! i = Some x →
              distinct_values field ds !! j = Some y →
              json_eqb y x = false)
  ∧ (∀ v, v ∈ distinct_values field ds →
          ∃ d, d ∈ ds ∧ d !! field = Some v)
  ∧ (∀ d v, d ∈ ds → d !! field = Some v →
            ∃ v', v' ∈ distinct_values field ds ∧ json_eqb v v' = true)
  ∧ ((∀ d, d ∈ ds → d !! field = None) → distinct_values field ds = []).
Proof.
  induction ds as [|d ds (IH1 & IH2 & IH3 & IH4)] using rev_ind.
  - split; [|split; [|split]]; try done.
    + intros v H. by apply elem_of_nil in H.
    + intros d v H. by apply elem_of_nil in H.
  - rewrite distinct_values_snoc.
    assert (Hkeep :
      (∀ v, v ∈ distinct_values field ds →
            ∃ d0, d0 ∈ ds ++ [d] ∧ d0 !! field = Some v)
      ∧ (∀ d0 v, d0 ∈ ds → d0 !! field = Some v →
                 ∃ v', v' ∈ distinct_values field ds ∧ json_eqb v v' = true)).
    { split; [|done]. intros v Hv. destruct (IH2 v Hv) as (d0 & ? & ?).
      exists d0. split; [apply elem_of_app; by left|done]. }
    destruct Hkeep as [Hsound Hcompl].
    destruct (d !! field) as [v|] eqn:Hd.
    + destruct (existsb (json_eqb v) (distinct_values field ds)) eqn:He.
      * split; [done|]. split; [done|]. split.
        -- intros d0 v0 H0 Hv0. apply elem_of_app in H0 as [H0|H0]; [eauto|].
           apply list_elem_of_singleton in H0 as ->.
           rewrite Hd in Hv0. injection Hv0 as <-.
           apply existsb_exists in He as (x & Hx & Hvx).
           exists x. by rewrite list_elem_of_In.
        -- intros H. specialize (H d). rewrite Hd in H.
           discriminate H. apply elem_of_app. right. left.
      * pose proof (proj1 (existsb_false_all _ _) He) as Hnew.
        split; [|split; [|split]].
        -- intros i j x y Hij Hi Hj.
           destruct (decide (j < length (distinct_values field ds))%nat)
             as [Hlt|Hge].
           ++ rewrite lookup_app_l in Hi by lia.
              rewrite lookup_app_l in Hj by lia. eauto.
           ++ rewrite lookup_app_r in Hj by lia.
              apply list_lookup_singleton_Some in Hj as [Hj <-].
              rewrite lookup_app_l in Hi by lia.
              apply Hnew. by eapply list_elem_of_lookup_2.
        -- intros v0 H0. apply elem_of_app in H0 as [H0|H0]; [eauto|].
           apply list_elem_of_singleton in H0 as ->.
           exists d. split; [|done]. apply elem_of_app. right. left.
        -- intros d0 v0 H0 Hv0. apply elem_of_app in H0 as [H0|H0].
           ++ destruct (Hcompl _ _ H0 Hv0) as (v' & ? & ?).
              exists v'. split; [apply elem_of_app; by left|done].
           ++ apply list_elem_of_singleton in H0 as ->.
              rewrite Hd in Hv0. injection Hv0 as <-.
              exists v. split; [|apply json_eqb_refl].
              apply elem_of_app. right. left.
        -- intros H. specialize (H d). rewrite Hd in H.
           discriminate H. apply elem_of_app. right. left.
    + split; [done|]. split; [done|]. split.
      * intros d0 v0 H0 Hv0. apply elem_of_app in H0 as [H0|H0]; [eauto|].
        apply list_elem_of_singleton in H0 as ->. congruence.
      * intros H. apply IH4. intros d0 H0. apply H, elem_of_app. by left.
Qed.

(** X10.  GET /filters/all makes its nine queries one after the other and
    stops at the first that fails: then it answers 500 with "Failed to
    load filters", writes one console line with that error, and returns
    none of the lists it already had.  When all nine answer it returns
    the nine lists; the console is untouched. *)
Theorem get_filters_all_responses (req : request) (w : world) :
  get_filters_all req w =
  match first_fault 9 (faults w) with
  | Some e =>
      (Resolved (Response 500 (message_body "Failed to load filters")),
       with_console (console w ++ [("Error fetching filters:", e)])
         (after_trips 9 w))
  | None =>
      (Resolved
         (Response 200
            (JObj
               [ ("countries", JArr (distinct_values "country" (items w)));
                 ("sectors", JArr (distinct_values "sector" (items w)));
                 ("topics", JArr (distinct_values "topic" (items w)));
                 ("pestles", JArr (distinct_values "pestle" (items w)));
                 ("regions", JArr (distinct_values "region" (items w)));
                 ("sources", JArr (distinct_values "source" (items w)));
                 ("swots", JArr (distinct_values "swot" (items w)));
                 ("end_years", JArr (distinct_values "end_year" (items w)));
                 ("start_years",
                  JArr (distinct_values "start_year" (items w))) ])),
       after_trips 9 w)
  end.
Proof.
  unfold get_filters_all, try_catch, bind, Item_distinct, roundtrip,
    res_json, ret, console_error, after_trips.
  destruct w as [ds fs c t n]. cbn [faults items console].
  do 9 (destruct fs as [|[?|] fs]; [reflexivity|reflexivity|cbn]).
  reflexivity.
Qed.

(** ** The statistics endpoint *)

Lemma avgLikelihoodBySector_run docs :
  run_pipeline avgLikelihoodBySector_pipeline docs =
  Some (sort_stage "avgLikelihood" (-1)
          (group_stage "sector" "avgLikelihood" (Avg "likelihood")
             (List.filter (has_value "likelihood") docs))).
Proof.
  unfold avgLikelihoodBySector_pipeline, run_pipeline, run_stage.
  by rewrite !object_literal_one, match_stage_ne.
Qed.

Lemma aggregate_bind {B} p (k : list doc -> M B) w result :
  run_pipeline p (items w) = Some result →
  bind (Item_aggregate p) k w =
  match first_fault 1 (faults w) with
  | Some e => (Rejected e, after_trips 1 w)
  | None => k result (after_trips 1 w)
  end.
Proof.
  intros H. unfold bind, Item_aggregate, roundtrip, after_trips.
  destruct w as [ds fs c t n]. simpl in H.
  destruct fs as [|[?|] ?]; cbn [faults items with_faults first_fault];
    rewrite ?H; reflexivity.
Qed.

Ltac settle :=
  cbn [first_fault faults after_trips consumed drop with_faults items
         console clock created].

(** X11.  GET /stats/aggregate runs its four pipelines one after the
    other; the store refuses none of them, so the endpoint fails only
    when a round trip does: then it answers 500 with "Failed to fetch
    statistics" and writes one console line.  Otherwise it answers 200
    with the four results under their names. *)
Theorem get_stats_aggregate_responses (req : request) (w : world) :
  get_stats_aggregate req w =
  match first_fault 4 (faults w) with
  | Some e =>
      (Resolved (Response 500 (message_body "Failed to fetch statistics")),
       with_console (console w ++ [("Error fetching stats:", e)])
         (after_trips 4 w))
  | None =>
      (Resolved
         (Response 200
            (JObj
               [ ("avgIntensityByRegion",
                  docs_json
                    (sort_stage "avgIntensity" (-1)
                       (group_stage "region" "avgIntensity" (Avg "intensity")
                          (List.filter (has_value "intensity") (items w)))));
                 ("countByTopic",
                  docs_json
                    (sort_stage "count" (-1)
                       (group_stage "topic" "count" (Sum 1) (items w))));
                 ("avgLikelihoodBySector",
                  docs_json
                    (sort_stage "avgLikelihood" (-1)
                       (group_stage "sector" "avgLikelihood" (Avg "likelihood")
                          (List.filter (has_value "likelihood") (items w)))));
                 ("avgRelevanceByYear",
                  docs_json
                    (sort_stage "_id" 1
                       (group_stage "end_year" "avgRelevance" (Avg "relevance")
                          (List.filter
                             (fun d => negb (field_equals (JStr "")
                                                          (d !! "relevance")))
                             (items w))))) ])),
       after_trips 4 w)
  end.
Proof.
  unfold get_stats_aggregate, try_catch.
  rewrite (aggregate_bind _ _ w _ (avgIntensityByRegion_run _)).
  destruct w as [ds fs c t n].
  destruct fs as [|[e|] fs]; [|reflexivity|].
  - settle.
    rewrite (aggregate_bind _ _ _ _ (countByTopic_run _)).
    settle.
    rewrite (aggregate_bind _ _ _ _ (avgLikelihoodBySector_run _)).
    settle.
    rewrite (aggregate_bind _ _ _ _ (avgRelevanceByYear_run _)).
    reflexivity.
  - settle.
    rewrite (aggregate_bind _ _ _ _ (countByTopic_run _)).
    settle.
    destruct fs as [|[e|] fs]; [|reflexivity|].
    all: settle;
      rewrite (aggregate_bind _ _ _ _ (avgLikelihoodBySector_run _));
      settle.
    + rewrite (aggregate_bind _ _ _ _ (avgRelevanceByYear_run _)).
      reflexivity.
    + destruct fs as [|[e|] fs]; [|reflexivity|].
      all: settle;
        rewrite (aggregate_bind _ _ _ _ (avgRelevanceByYear_run _));
        settle.
      * reflexivity.
      * destruct fs as [|[e|] fs]; reflexivity.
Qed.

(** ** Logging *)

Lemma quiet_ret {A} (a : A) : quiet (ret a).
Proof. done. Qed.

Lemma quiet_throw {A} e : quiet (@throw A e).
Proof. done. Qed.

Lemma quiet_res_json code v : quiet (res_json code v).
Proof. done. Qed.

Lemma quiet_bind {A B} (m : M A) (k : A -> M B) :
  quiet m → (∀ a, quiet (k a)) → quiet (bind m k).
Proof.
  intros Hm Hk w. unfold bind. specialize (Hm w).
  destruct (m w) as [[a|e] w']; simpl in *; [|done].
  by rewrite Hk.
Qed.

Lemma quiet_try_catch {A} (m : M A) (h : error -> M A) :
  quiet m → (∀ e, quiet (h e)) → quiet (try_catch m h).
Proof.
  intros Hm Hh w. unfold try_catch. specialize (Hm w).
  destruct (m w) as [[a|e] w']; simpl in *; [done|].
  by rewrite Hh.
Qed.

Lemma quiet_roundtrip {A} (op : world -> outcome A * world) :
  quiet op → quiet (roundtrip op).
Proof.
  intros Hop w. unfold roundtrip.
  destruct (faults w) as [|[e|] fs]; try done.
  by rewrite Hop.
Qed.

Lemma quiet_Item_find filter : quiet (Item_find filter).
Proof. by apply quiet_roundtrip. Qed.

Lemma quiet_Item_findById cast id : quiet (Item_findById cast id).
Proof.
  unfold Item_findById. destruct (cast id); [done|]. by apply quiet_roundtrip.
Qed.

Lemma quiet_Item_findByIdAndUpdate cast castBody id update :
  quiet (Item_findByIdAndUpdate cast castBody id update).
Proof.
  unfold Item_findByIdAndUpdate. destruct (cast id) as [|oid]; [done|].
  destruct (castBody update); [done|]. apply quiet_roundtrip.
  intros w. by destruct (List.find (has_id oid) (items w)).
Qed.

Lemma quiet_Item_findByIdAndDelete cast id :
  quiet (Item_findByIdAndDelete cast id).
Proof.
  unfold Item_findByIdAndDelete. destruct (cast id); [done|].
  by apply quiet_roundtrip.
Qed.

Lemma quiet_Item_distinct field : quiet (Item_distinct field).
Proof. by apply quiet_roundtrip. Qed.

Lemma quiet_Item_aggregate p : quiet (Item_aggregate p).
Proof.
  apply quiet_roundtrip. intros w. by destruct (run_pipeline p (items w)).
Qed.

Lemma quiet_new_Item castBody objectId obj :
  quiet (new_Item castBody objectId obj).
Proof. done. Qed.

Lemma quiet_save item : quiet (save item).
Proof. destruct item; [done|]. by apply quiet_roundtrip. Qed.

Create HintDb quiet.
#[local] Hint Resolve quiet_ret quiet_throw quiet_res_json quiet_bind
  quiet_try_catch quiet_Item_find quiet_Item_findById
  quiet_Item_findByIdAndUpdate quiet_Item_findByIdAndDelete
  quiet_Item_distinct quiet_Item_aggregate quiet_new_Item quiet_save : quiet.

Lemma try_catch_answers label ok code text (m : M response) :
  quiet m → resolves_within (fun r => status r = ok) m →
  answers_or_logs label ok code text
    (try_catch m (fun err => _ <- console_error label err ;;
                             res_json code (message_body text))).
Proof.
  intros Hq Hm w. unfold try_catch. specialize (Hq w). specialize (Hm w).
  destruct (m w) as [[r|e] w']; simpl in *.
  - exists r. split; [done|]. by left.
  - eexists. split; [done|]. right. split; [done|]. exists e. by rewrite Hq.
Qed.

Ltac answers :=
  apply try_catch_answers;
  [ auto 40 with quiet
  | repeat first
      [ apply resolves_within_res_json; reflexivity
      | apply resolves_within_bind; intros ? ] ].

(** X12.  Every handler always answers, whatever the store does.  Seven
    of them answer a failure with their own status and text and write
    exactly one console line, their label with the error caught; on
    success they write none.  GET /:id answers 200, 404 or 500 and never
    writes to the console. *)
Theorem handlers_answer_and_log
    (castObjectId : string -> error + string) (castBody : doc -> error + doc)
    (objectId : nat -> string) (req : request) :
  answers_or_logs "Error fetching data:" 200 500 "Server Error"
    (get_root req)
  ∧ answers_or_logs "Error adding item:" 201 400 "Failed to add item"
      (post_root castBody objectId req)
  ∧ answers_or_logs "Error updating item:" 200 400 "Failed to update item"
      (put_by_id castObjectId castBody req)
  ∧ answers_or_logs "Error deleting item:" 200 400 "Failed to delete item"
      (delete_by_id castObjectId req)
  ∧ answers_or_logs "Error fetching filters:" 200 500 "Failed to load filters"
      (get_filters_all req)
  ∧ answers_or_logs "Error filtering data:" 200 500 "Failed to filter data"
      (post_filter req)
  ∧ answers_or_logs "Error fetching stats:" 200 500
      "Failed to fetch statistics" (get_stats_aggregate req)
  ∧ quiet (get_by_id castObjectId req)
  ∧ ∀ w, ∃ r, (get_by_id castObjectId req w).1 = Resolved r
              ∧ (status r = 200 ∨ status r = 404 ∨ status r = 500).
Proof.
  repeat split.
  - unfold get_root. answers.
  - unfold post_root. answers.
  - unfold put_by_id. answers.
  - unfold delete_by_id. answers.
  - unfold get_filters_all. answers.
  - unfold post_filter. answers.
  - unfold get_stats_aggregate. answers.
  - unfold get_by_id. apply quiet_try_catch; [|auto with quiet].
    apply quiet_bind; [auto with quiet|]. intros [d|]; auto with quiet.
  - intros w. rewrite get_by_id_run. eexists. split; [done|].
    destruct (castObjectId (params_id req)); [auto|].
    destruct (next_fault w); [auto|].
    destruct (List.find _ _); auto.
Qed.

(** ** The averaging pipelines *)

Lemma numeric_values_filter path (p g : doc -> bool) docs :
  (∀ d, p d = false → numeric_values path [d] = []) →
  numeric_values path (List.filter (fun d => p d && g d) docs) =
  numeric_values path (List.filter g docs).
Proof.
  intros Hp. induction docs as [|d docs IH]; simpl; [done|].
  destruct (p d) eqn:Hd, (g d); simpl; try done.
  - unfold numeric_values in *. simpl. by rewrite IH.
  - specialize (Hp d Hd). unfold numeric_values in *. simpl in *.
    destruct (d !! path) as [[ | |q| | | ]|]; try done.
Qed.

Lemma has_value_numeric path (d : doc) :
  has_value path d = false → numeric_values path [d] = [].
Proof.
  unfold has_value, numeric_values, field_equals. simpl.
  by destruct (d !! path) as [[ | |q| | | ]|].
Qed.

Lemma not_empty_string_numeric path (d : doc) :
  negb (field_equals (JStr "") (d !! path)) = false →
  numeric_values path [d] = [].
Proof.
  unfold numeric_values, field_equals. simpl.
  by destruct (d !! path) as [[ | |q| | | ]|].
Qed.

Lemma avg_stage_entries path key out skey dir (p : doc -> bool) docs r :
  (∀ d, p d = false → numeric_values path [d] = []) →
  r ∈ sort_stage skey dir (group_stage key out (Avg path) (List.filter p docs)) →
  ∃ k, r = <[out := average
                      (numeric_values path
                         (List.filter (same_key key k) docs))]>
             {["_id" := k]}
       ∧ ∃ d, d ∈ docs ∧ p d = true ∧ same_key key k d = true.
Proof.
  intros Hp Hr.
  rewrite (proj2 (sort_stage_sorted _ _ _)) in Hr.
  apply group_stage_entry in Hr as (k & ds & -> & Hds & Hne).
  rewrite filter_filter in Hds. exists k. split.
  - cbn [accumulate]. by rewrite Hds, numeric_values_filter.
  - destruct ds as [|d ds]; [done|].
    assert (Hd : d ∈ d :: ds) by left. rewrite Hds in Hd.
    apply list_elem_of_In, List.filter_In in Hd as [Hd Hq].
    apply andb_true_iff in Hq as [? ?].
    exists d. by rewrite list_elem_of_In.
Qed.

Lemma avg_stage_covers path key out skey dir (p : doc -> bool) docs d :
  out ≠ "_id" → d ∈ docs → p d = true →
  ∃ r k, r ∈ sort_stage skey dir
               (group_stage key out (Avg path) (List.filter p docs))
         ∧ r !! "_id" = Some k ∧ same_key key k d = true.
Proof.
  intros Hout Hd Hp.
  destruct (group_stage_covers key out (Avg path) (List.filter p docs) d)
    as (r & k & Hr & Hid & Hk); [done| |].
  { apply list_elem_of_In, List.filter_In. by rewrite <- list_elem_of_In. }
  exists r, k. by rewrite (proj2 (sort_stage_sorted _ _ _)).
Qed.

(** X13.  avgLikelihoodBySector has one entry for each sector with a
    record whose likelihood is there and not [null]; its mean is taken
    over the likelihoods that are numbers among all the records of the
    sector, [null] when there is none. *)
Theorem avgLikelihoodBySector_mean (docs : list doc) :
  ∃ result,
    run_pipeline avgLikelihoodBySector_pipeline docs = Some result
    ∧ (∀ r, r ∈ result →
            ∃ k,
              r = <["avgLikelihood" :=
                      average
                        (numeric_values "likelihood"
                           (List.filter (same_key "sector" k) docs))]>
                    {["_id" := k]}
              ∧ ∃ d, d ∈ docs ∧ has_value "likelihood" d = true
                     ∧ same_key "sector" k d = true)
    ∧ (∀ d, d ∈ docs → has_value "likelihood" d = true →
            ∃ r k, r ∈ result
                   ∧ r !! "_id" = Some k ∧ same_key "sector" k d = true).
Proof.
  eexists. split; [apply avgLikelihoodBySector_run|]. split.
  - intros r Hr. eapply avg_stage_entries; [|exact Hr].
    apply has_value_numeric.
  - intros d Hd Hv. by apply avg_stage_covers.
Qed.

(** X14.  avgRelevanceByYear, as the store receives it, drops only the
    records whose relevance is the empty string.  It has one entry for
    each [end_year] with a record that is kept; its mean is taken over the
    relevances that are numbers among all the records of the year, so a
    record without relevance never changes a mean, and a year without any
    number has the mean [null]. *)
Theorem avgRelevanceByYear_entries (docs : list doc) :
  ∃ result,
    run_pipeline avgRelevanceByYear_pipeline docs = Some result
    ∧ (∀ r, r ∈ result →
            ∃ k,
              r = <["avgRelevance" :=
                      average
                        (numeric_values "relevance"
                           (List.filter (same_key "end_year" k) docs))]>
                    {["_id" := k]}
              ∧ ∃ d, d ∈ docs ∧ d !! "relevance" ≠ Some (JStr "")
                     ∧ same_key "end_year" k d = true)
    ∧ (∀ d, d ∈ docs → d !! "relevance" ≠ Some (JStr "") →
            ∃ r k, r ∈ result
                   ∧ r !! "_id" = Some k ∧ same_key "end_year" k d = true).
Proof.
  assert (Hne : ∀ d : doc,
    negb (field_equals (JStr "") (d !! "relevance")) = true ↔
    d !! "relevance" ≠ Some (JStr "")).
  { intros d. rewrite negb_true_iff, <- not_true_iff_false.
    by rewrite field_equals_str. }
  eexists. split; [apply avgRelevanceByYear_run|]. split.
  - intros r Hr.
    eapply avg_stage_entries in Hr as (k & -> & d & Hd & Hp & Hk);
      [|apply not_empty_string_numeric].
    exists k. split; [done|]. exists d. by rewrite <- Hne.
  - intros d Hd Hv.
    apply (avg_stage_covers "relevance" "end_year" "avgRelevance" "_id" 1
             (fun d => negb (field_equals (JStr "") (d !! "relevance"))));
      [done|done|by apply Hne].
Qed.

(** ** Order and keys of the results *)







(** ** Routes *)

Lemma lower_filters_stats seg :
  String.eqb "filters" (lower seg) && String.eqb "stats" (lower seg) = false.
Proof.
  destruct (String.eqb "filters" (lower seg)) eqn:H1; [|done].
  apply String.eqb_eq in H1 as <-. reflexivity.
Qed.

(** X16.  No request is matched by two routes of the router, so the order
    in which they are registered decides nothing: GET /:id, registered
    first, does not capture GET /filters/all or GET /stats/aggregate.  It
    does capture every GET path of one segment, [/filters] and [/stats]
    among them. *)
Theorem routes_are_disjoint (m : method) (segs : list string) :
  (length (List.filter (route_matches m segs) routes) ≤ 1)%nat
  ∧ dispatch GET [] = Some ListItems
  ∧ dispatch POST [] = Some CreateItem
  ∧ dispatch POST ["filter"] = Some ChartFilter
  ∧ dispatch GET ["filters"; "all"] = Some FilterValues
  ∧ dispatch GET ["stats"; "aggregate"] = Some AggregateStats
  ∧ (∀ seg, seg ≠ "" →
            dispatch GET [seg] = Some GetItem
            ∧ dispatch PUT [seg] = Some UpdateItem
            ∧ dispatch DELETE [seg] = Some DeleteItem)
  ∧ (∀ a b c rest, dispatch m (a :: b :: c :: rest) = None).
Proof.
  split; [|split; [|split; [|split; [|split; [|split; [|split]]]]]];
    try reflexivity.
  - unfold routes, route_matches.
    destruct m, segs as [|a [|b [|c rest]]]; cbn -[lower String.eqb];
      try (simpl; lia).
    all: change (lower "filters") with "filters";
      change (lower "stats") with "stats";
      change (lower "all") with "all";
      change (lower "aggregate") with "aggregate";
      change (lower "filter") with "filter";
      rewrite ?andb_true_r, ?andb_false_r.
    all: try (destruct (negb (String.eqb a "")); simpl; lia).
    all: try (destruct (String.eqb "filter" (lower a)); simpl; lia).
    pose proof (lower_filters_stats a) as H.
    destruct (String.eqb "filters" (lower a)),
      (String.eqb "stats" (lower a)); try discriminate H;
      cbn -[String.eqb lower].
    + destruct (String.eqb "all" (lower b)); simpl; lia.
    + destruct (String.eqb "aggregate" (lower b)); simpl; lia.
    + lia.
  - intros seg Hseg. apply String.eqb_neq in Hseg.
    unfold dispatch, routes, route_matches. cbn -[String.eqb].
    by rewrite Hseg.
  - intros a b c rest. unfold dispatch, routes, route_matches.
    destruct m; cbn -[String.eqb lower]; by rewrite ?andb_false_r.
Qed.

(** ** Cross-origin requests *)

Lemma prefix_app (p s : string) :
  String.prefix p s = true ↔ ∃ rest, s = (p ++ rest)%string.
Proof.
  revert s. induction p as [|a p IH]; intros s.
  - split; [|by destruct s]. intros _. by exists s.
  - destruct s as [|b s]; simpl.
    + split; [done|]. intros [rest H]. discriminate H.
    + destruct (Ascii.ascii_dec a b) as [->|Hne].
      * rewrite IH. split; intros [rest H]; exists rest.
        -- change (String b s = String b (p ++ rest)%string). by rewrite H.
        -- change (String b s = String b (p ++ rest)%string) in H.
           by injection H.
      * split; [done|]. intros [rest H].
        change (String b s = String a (p ++ rest)%string) in H.
        injection H as -> _. done.
Qed.

(** X17.  The CORS policy lets a request through exactly when it has no
    Origin header, an empty one, or one that begins with
    [http://localhost]: any port, and any longer host name with that
    beginning.  Every other origin is refused with "Not allowed by
    CORS". *)
Theorem cors_origin_allows (origin : option string) :
  (cors_origin origin = Allow ↔
   origin = None ∨ origin = Some ""
   ∨ ∃ rest, origin = Some ("http://localhost" ++ rest)%string)
  ∧ (cors_origin origin = Allow
     ∨ cors_origin origin = Deny "Not allowed by CORS")
  ∧ (∀ port,
        cors_origin (Some ("http://localhost:" ++ port)%string) = Allow)
  ∧ (∀ host,
        cors_origin (Some ("http://localhost." ++ host)%string) = Allow)
  ∧ (∀ rest,
        cors_origin (Some ("https://" ++ rest)%string)
        = Deny "Not allowed by CORS").
Proof.
  split; [|split; [|split; [|split]]].
  - unfold cors_origin. destruct origin as [o|]; [|by split; auto].
    destruct (negb (truthy (JStr o))) eqn:He; cbn [orb].
    + simpl in He. apply negb_true_iff, negb_false_iff, String.eqb_eq in He.
      subst. split; auto.
    + destruct (String.prefix "http://localhost" o) eqn:Hp.
      * apply prefix_app in Hp as [rest ->]. split; eauto.
      * split; [done|]. intros [?|[[= ->]|[rest [= ->]]]]; [done|done|].
        assert (String.prefix "http://localhost"
                  ("http://localhost" ++ rest) = true)
          by (apply prefix_app; eauto).
        congruence.
  - unfold cors_origin. destruct origin as [o|]; [|by left].
    destruct (_ || _); auto.
  - intros port. unfold cors_origin.
    replace (String.prefix _ _) with true; [by rewrite orb_true_r|].
    symmetry. apply prefix_app. by exists (":" ++ port)%string.
  - intros host. unfold cors_origin.
    replace (String.prefix _ _) with true; [by rewrite orb_true_r|].
    symmetry. apply prefix_app. by exists ("." ++ host)%string.
  - intros rest. reflexivity.
Qed.

(** ** From the drop-down lists back to the listing *)

Lemma distinct_values_sound field ds v :
  v ∈ distinct_values field ds → ∃ d : doc, d ∈ ds ∧ d !! field = Some v.
Proof.
  induction ds as [|d ds IH] using rev_ind.
  - intros H. by apply elem_of_nil in H.
  - rewrite distinct_values_snoc. intros H.
    assert (Hold : v ∈ distinct_values field ds →
                   ∃ d0 : doc, d0 ∈ ds ++ [d] ∧ d0 !! field = Some v).
    { intros Hv. destruct (IH Hv) as (d0 & ? & ?). exists d0.
      split; [apply elem_of_app; by left|done]. }
    destruct (d !! field) as [v0|] eqn:Hd; [|by apply Hold].
    destruct (existsb _ _); [by apply Hold|].
    apply elem_of_app in H as [H|H]; [by apply Hold|].
    apply list_elem_of_singleton in H as ->.
    exists d. split; [|done]. apply elem_of_app. right. left.
Qed.

Lemma listFilter_single field v :
  field ∈ list_params → v ≠ "" →
  listFilter {[field := JStr v]} = {[field := JStr v]}.
Proof.
  intros Hf Hv. apply map_eq. intros k. rewrite listFilter_lookup.
  destruct (decide (k = field)) as [->|Hne].
  - rewrite bool_decide_eq_true_2 by done. rewrite lookup_singleton_eq.
    simpl. apply String.eqb_neq in Hv. by rewrite Hv.
  - rewrite lookup_singleton_ne by done. by case_bool_decide.
Qed.

Lemma listFilter_empty_string field :
  listFilter {[field := JStr ""]} = ∅.
Proof.
  apply map_eq. intros k. rewrite listFilter_lookup, lookup_empty.
  case_bool_decide; [|done].
  destruct (decide (k = field)) as [->|Hne].
  - by rewrite lookup_singleton_eq.
  - by rewrite lookup_singleton_ne.
Qed.

Lemma filter_matches_empty (ds : list doc) :
  List.filter (matches ∅) ds = ds.
Proof.
  induction ds as [|d ds IH]; simpl; [done|]. by rewrite matches_empty, IH.
Qed.

(** X18.  A non-empty string that GET /filters/all lists for one of the
    seven parameters of GET /, given back as that parameter, selects the
    documents that hold it in the field, and there is at least one.  The
    empty string, which the lists can hold too, selects nothing: given
    back as a parameter it returns the whole collection. *)
Theorem distinct_value_filters_back (field v : string) (ds : list doc) :
  field ∈ list_params →
  JStr v ∈ distinct_values field ds →
  v ≠ "" →
  let found := List.filter (matches (listFilter {[field := JStr v]})) ds in
  (∃ d, d ∈ found)
  ∧ (∀ d, d ∈ found ↔ d ∈ ds ∧ d !! field = Some (JStr v))
  ∧ (∀ id b c t n,
        (get_root (Request id {[field := JStr v]} b) (World ds [] c t n)).1 =
        Resolved (Response 200 (docs_json found)))
  ∧ List.filter (matches (listFilter {[field := JStr ""]})) ds = ds.
Proof.
  intros Hf Hv Hne found.
  assert (Hin : ∀ d, d ∈ found ↔ d ∈ ds ∧ d !! field = Some (JStr v)).
  { intros d. unfold found. rewrite listFilter_single by done.
    rewrite list_elem_of_In, List.filter_In, <- list_elem_of_In.
    rewrite matches_spec. split; intros [Hd Hm]; (split; [done|]).
    - apply field_equals_str, Hm. apply lookup_singleton_eq.
    - intros k x Hk. apply lookup_singleton_Some in Hk as [<- <-].
      by apply field_equals_str. }
  split; [|split; [done|split]].
  - destruct (distinct_values_sound _ _ _ Hv) as (d & Hd & Hdv).
    exists d. by apply Hin.
  - intros. reflexivity.
  - rewrite listFilter_empty_string. apply filter_matches_empty.
Qed.

Lemma distinct_value_filters_back_example :
  let ds := [asia3; oil] in
  let found := List.filter (matches (listFilter {["topic" := JStr "oil"]})) ds in
  (∃ d, d ∈ found)
  ∧ (∀ d, d ∈ found ↔ d ∈ ds ∧ d !! "topic" = Some (JStr "oil"))
  ∧ (∀ id b c t n,
        (get_root (Request id {["topic" := JStr "oil"]} b)
           (World ds [] c t n)).1 =
        Resolved (Response 200 (docs_json found)))
  ∧ List.filter (matches (listFilter {["topic" := JStr ""]})) ds = ds.
Proof.
  intros ds.
  apply (distinct_value_filters_back "topic" "oil" ds).
  - unfold list_params. repeat constructor.
  - vm_compute. constructor.
  - discriminate.
Defined.


(** ** What the builders let through *)

(** X19.  The two filter builders never change a value: every entry of
    the filter is the entry of the request under the same name.  They
    drop [null], [false], zero and the empty string, and keep every
    array and every object, whatever it holds, so an object sent as a
    parameter reaches the store's filter as it came. *)
Theorem filters_pass_values_through (req : doc) :
  (∀ k v, listFilter req !! k = Some v → req !! k = Some v)
  ∧ (∀ k v, chartFilter req !! k = Some v → req !! k = Some v)
  ∧ (∀ k v, req !! k = Some v →
            v = JNull ∨ v = JBool false ∨ v = JStr ""
            ∨ (∃ q, v = JNum q ∧ (q == 0)%Q) →
            listFilter req !! k = None ∧ chartFilter req !! k = None)
  ∧ (∀ k v, req !! k = Some v →
            (∃ l, v = JArr l) ∨ (∃ l, v = JObj l) →
            (k ∈ list_params → listFilter req !! k = Some v)
            ∧ (k ∈ chart_params → chartFilter req !! k = Some v)).
Proof.
  assert (Hkept : ∀ k v, kept (req !! k) = Some v → req !! k = Some v).
  { intros k v. unfold kept. destruct (req !! k) as [x|]; [|done].
    by destruct (truthy x). }
  split; [|split; [|split]].
  - intros k v. rewrite listFilter_lookup. case_bool_decide; [|done].
    apply Hkept.
  - intros k v. rewrite chartFilter_lookup. case_bool_decide; [|done].
    apply Hkept.
  - intros k v Hk Hv. rewrite listFilter_lookup, chartFilter_lookup, Hk.
    assert (truthy v = false) as Ht.
    { destruct Hv as [->|[->|[->|(q & -> & Hq)]]]; try done.
      simpl. apply Qeq_bool_iff in Hq. by rewrite Hq. }
    unfold kept. rewrite Ht. by do 2 case_bool_decide.
  - intros k v Hk Hv. rewrite listFilter_lookup, chartFilter_lookup, Hk.
    assert (truthy v = true) as Ht by (by destruct Hv as [[l ->]|[l ->]]).
    unfold kept. rewrite Ht.
    split; intros Hin; by rewrite bool_decide_eq_true_2.
Qed.

Lemma remove_first_none (p : doc -> bool) ds :
  List.find p ds = None → remove_first p ds = ds.
Proof.
  induction ds as [|d ds IH]; simpl; [done|].
  destruct (p d); [done|]. intros H. by rewrite IH.
Qed.

(** X20.  Deleting twice leaves the collection as deleting once does,
    provided the identifier is well formed, the store answers, and at
    most one document carries the identifier. *)
Theorem delete_by_id_twice
    (castObjectId : string -> error + string)
    (req : request) (w : world) (oid : string) :
  castObjectId (params_id req) = inr oid →
  faults w = [] →
  (length (List.filter (has_id oid) (items w)) ≤ 1)%nat →
  let once := delete_by_id castObjectId req w in
  let twice := delete_by_id castObjectId req once.2 in
  twice = once ∧ items once.2 = remove_first (has_id oid) (items w).
Proof.
  intros Hid Hfaults Huniq once twice. subst once twice.
  rewrite !delete_by_id_run, Hid, Hfaults. simpl.
  unfold after_trips. rewrite Hfaults. simpl. split; [|done].
  by rewrite remove_first_none by by apply find_remove_first_unique.
Qed.

Lemma delete_by_id_twice_example :
  let req := Request "65f1c0de0000000000000000" ∅ ∅ in
  let w := World [asia3; oil] [] [] 7 0 in
  let once := delete_by_id example_castObjectId req w in
  let twice := delete_by_id example_castObjectId req once.2 in
  twice = once
  ∧ items once.2 =
    remove_first (has_id "65f1c0de0000000000000000") (items w).
Proof.
  intros req w.
  apply (delete_by_id_twice example_castObjectId req w
           "65f1c0de0000000000000000"); [reflexivity|reflexivity|].
  vm_compute. lia.
Defined.
